(** * Device pairing and session management: a model of [PairingService]

    Shallow embedding of [src/services/pairing-service.ts] and of the types
    in [src/types/pairing.ts].

    Conventions.
    - A [Date] is its [getTime()] value: milliseconds as a [Z].  Every date
      comparison of the source ([a < b] on two [Date]s) is the comparison of
      these numbers.
    - The environment variables read through [parseInt(process.env.X || d)]
      are gathered in a [Config] record of integers, and
      [SESSION_SLIDING_EXPIRY === 'true'] is a boolean.
    - The outputs of [generatePairingCode], [generateSessionId] and
      [generateToken] are random; each operation takes the values drawn as
      extra arguments.
    - [pairingCodes] and [rateLimitMap] are only read by key and swept by a
      predicate, so they are finite maps.  [sessions] is scanned in insertion
      order by [validateSession] and listed in that order by [getSessions],
      so it is an insertion-ordered association list ([JsMap]).
    - The service's methods change the three maps before their first
      [await]; each call is one atomic step here.  [sessionsFile] holds what
      was last written to [sessions.json].  The definitions named after the
      methods, the guard and the routes are the calls whose write succeeds;
      [validateSessionIO], [completePairingIO], [sessionAuthIO] and
      [routeCompleteIO] take the outcome of the write as an argument and
      agree with them when it succeeds. *)

From stdpp Require Import gmap strings list fin_maps.
From Stdlib Require Import ZArith Ascii String Lia.

Local Open Scope string_scope.
Local Open Scope Z_scope.

(** ** Error codes and results ([ERROR_CODES] of [types/pairing.ts]) *)

Inductive ErrorCode : Type :=
| PAIRING_CODE_INVALID
| PAIRING_CODE_EXPIRED
| PAIRING_RATE_LIMITED
| SESSION_INVALID
| SESSION_EXPIRED
| SESSION_LIMIT_REACHED
| UNAUTHORIZED.

(** A call either returns a value or throws [new Error(code)]. *)
Inductive Result (A : Type) : Type :=
| Ok (a : A)
| Throw (e : ErrorCode).
Arguments Ok {A} a.
Arguments Throw {A} e.

Definition isOk {A} (r : Result A) : bool :=
  match r with Ok _ => true | Throw _ => false end.

(** ** Data model *)

Record PairingCode : Type := mkPairingCode {
  pc_code : string;
  pc_sessionId : string;
  pc_createdAt : Z;
  pc_expiresAt : Z;
  pc_deviceName : option string;
  pc_ipAddress : option string
}.

Record Session : Type := mkSession {
  id : string;
  token : string;
  deviceName : string;
  createdAt : Z;
  lastUsedAt : Z;
  expiresAt : Z;
  ipAddress : option string;
  userAgent : option string
}.

(** The value type of [rateLimitMap]. *)
Record RateLimit : Type := mkRateLimit {
  attempts : Z;
  resetAt : Z
}.

Record Config : Type := mkConfig {
  PAIRING_CODE_EXPIRY : Z;      (* default 300 *)
  PAIRING_MAX_ATTEMPTS : Z;     (* default 3 *)
  SESSION_MAX_PER_USER : Z;     (* default 10 *)
  SESSION_TOKEN_EXPIRY : Z;     (* default 2592000 *)
  SESSION_SLIDING_EXPIRY : bool (* default false *)
}.

Definition defaultConfig : Config :=
  {| PAIRING_CODE_EXPIRY := 300;
     PAIRING_MAX_ATTEMPTS := 3;
     SESSION_MAX_PER_USER := 10;
     SESSION_TOKEN_EXPIRY := 2592000;
     SESSION_SLIDING_EXPIRY := false |}.

(** ** JavaScript helpers *)

(** [String.prototype.toUpperCase] on the ASCII range: the letters [a]-[z]
    move to [A]-[Z], every other character is kept.  The generated codes are
    ASCII; the general results below use no property of this function, only
    the scenarios evaluate it. *)
Definition upper_ascii (c : ascii) : ascii :=
  let n := nat_of_ascii c in
  if ((97 <=? n) && (n <=? 122))%nat then ascii_of_nat (n - 32) else c.

Fixpoint toUpperCase (s : string) : string :=
  match s with
  | EmptyString => EmptyString
  | String c s' => String (upper_ascii c) (toUpperCase s')
  end.

(** Truthiness of an optional string: [undefined] and [''] are falsy. *)
Definition truthy (o : option string) : bool :=
  match o with
  | Some s => negb (String.eqb s "")
  | None => false
  end.

(** [a || b] where [a] is an optional string and [b] a string. *)
Definition orDefault (a : option string) (b : string) : string :=
  match a with
  | Some s => if String.eqb s "" then b else s
  | None => b
  end.

(** [a || b] on two optional strings. *)
Definition orElse (a b : option string) : option string :=
  if truthy a then a else b.

(** ** An insertion-ordered [Map<string, V>] *)

Module JsMap.
Section Ops.
Context {V : Type}.

Definition t : Type := list (string * V).

Fixpoint get (k : string) (m : t) : option V :=
  match m with
  | [] => None
  | (k', v) :: m' => if String.eqb k k' then Some v else get k m'
  end.

(** [set] keeps the position of a key that is already present and
    appends a new key at the end. *)
Fixpoint set (k : string) (v : V) (m : t) : t :=
  match m with
  | [] => [(k, v)]
  | (k', v') :: m' =>
      if String.eqb k k' then (k, v) :: m' else (k', v') :: set k v m'
  end.

Definition has (k : string) (m : t) : bool :=
  match get k m with Some _ => true | None => false end.

Definition delete (k : string) (m : t) : t :=
  List.filter (fun kv => negb (String.eqb k (fst kv))) m.

Definition size (m : t) : Z := Z.of_nat (List.length m).

Definition values (m : t) : list V := List.map snd m.

Definition keys (m : t) : list string := List.map fst m.

(** The keys of a [Map] are pairwise distinct. *)
Definition wf (m : t) : Prop := List.NoDup (keys m).
End Ops.
Arguments t : clear implicits.
End JsMap.

(** ** The service state: the three maps and the contents of
    [data/sessions.json] *)

Record State : Type := mkState {
  pairingCodes : gmap string PairingCode;
  sessions : JsMap.t Session;
  rateLimitMap : gmap string RateLimit;
  sessionsFile : list Session
}.

Definition initialState : State :=
  {| pairingCodes := ∅; sessions := []; rateLimitMap := ∅; sessionsFile := [] |}.

Definition withPairingCodes (st : State) (p : gmap string PairingCode) : State :=
  {| pairingCodes := p; sessions := sessions st;
     rateLimitMap := rateLimitMap st; sessionsFile := sessionsFile st |}.

Definition withSessions (st : State) (s : JsMap.t Session) : State :=
  {| pairingCodes := pairingCodes st; sessions := s;
     rateLimitMap := rateLimitMap st; sessionsFile := sessionsFile st |}.

Definition withRateLimitMap (st : State) (r : gmap string RateLimit) : State :=
  {| pairingCodes := pairingCodes st; sessions := sessions st;
     rateLimitMap := r; sessionsFile := sessionsFile st |}.

(** [saveSessions]: the whole current session set is written out. *)
Definition saveSessions (st : State) : State :=
  {| pairingCodes := pairingCodes st; sessions := sessions st;
     rateLimitMap := rateLimitMap st;
     sessionsFile := JsMap.values (sessions st) |}.

(** ** Sweeps *)

Definition cleanupExpiredCodes (now : Z) (st : State) : State :=
  withPairingCodes st
    (filter (fun kv : string * PairingCode => ¬ (pc_expiresAt (snd kv) < now))
            (pairingCodes st)).

Definition sessionExpired (now : Z) (s : Session) : bool := expiresAt s <? now.

Definition cleanupExpiredSessions (now : Z) (st : State) : State :=
  let kept :=
    List.filter (fun kv => negb (sessionExpired now (snd kv))) (sessions st) in
  let cleaned := (List.length (sessions st) - List.length kept)%nat in
  if (0 <? cleaned)%nat
  then saveSessions (withSessions st kept)
  else withSessions st kept.

Definition cleanupRateLimits (now : Z) (st : State) : State :=
  withRateLimitMap st
    (filter (fun kv : string * RateLimit => ¬ (resetAt (snd kv) < now))
            (rateLimitMap st)).

(** The body of the [setInterval] callback. *)
Definition cleanupTick (now : Z) (st : State) : State :=
  cleanupRateLimits now (cleanupExpiredSessions now (cleanupExpiredCodes now st)).

(** ** Rate limiter *)

Definition checkRateLimit (cfg : Config) (now : Z) (ip : string) (st : State)
  : bool * State :=
  let fresh := {| attempts := 1; resetAt := now + 60000 |} in
  match rateLimitMap st !! ip with
  | None => (true, withRateLimitMap st (<[ip := fresh]> (rateLimitMap st)))
  | Some limit =>
      if resetAt limit <? now
      then (true, withRateLimitMap st (<[ip := fresh]> (rateLimitMap st)))
      else if PAIRING_MAX_ATTEMPTS cfg <=? attempts limit
      then (false, st)
      else (true,
            withRateLimitMap st
              (<[ip := {| attempts := attempts limit + 1;
                          resetAt := resetAt limit |}]> (rateLimitMap st)))
  end.

(** ** Pairing *)

Record InitiateResult : Type := mkInitiateResult {
  ir_code : string;
  ir_sessionId : string;
  ir_expiresIn : Z
}.

(** [code] and [sessionId] are the values drawn by [generatePairingCode]
    and [generateSessionId]. *)
Definition initiatePairing (cfg : Config) (now : Z)
    (deviceName ipAddress : option string) (code sessionId : string)
    (st : State) : Result InitiateResult * State :=
  let '(allowed, st1) :=
    match ipAddress with
    | Some ip => if truthy ipAddress then checkRateLimit cfg now ip st
                 else (true, st)
    | None => (true, st)
    end in
  if negb allowed then (Throw PAIRING_RATE_LIMITED, st1)
  else
    let expirySeconds := PAIRING_CODE_EXPIRY cfg in
    let pairingCode :=
      {| pc_code := code; pc_sessionId := sessionId; pc_createdAt := now;
         pc_expiresAt := now + expirySeconds * 1000;
         pc_deviceName := deviceName; pc_ipAddress := ipAddress |} in
    (Ok {| ir_code := code; ir_sessionId := sessionId;
           ir_expiresIn := expirySeconds |},
     withPairingCodes st1 (<[code := pairingCode]> (pairingCodes st1))).

(** [token] is the value drawn by [generateToken].  Note the keys: the
    lookup uses [code.toUpperCase()], both deletions use [code] as given. *)
Definition completePairing (cfg : Config) (now : Z)
    (code sessionId : string) (ipAddress : option string) (token : string)
    (st : State) : Result Session * State :=
  match pairingCodes st !! toUpperCase code with
  | None => (Throw PAIRING_CODE_INVALID, st)
  | Some pairingCode =>
      if negb (String.eqb (pc_sessionId pairingCode) sessionId)
      then (Throw PAIRING_CODE_INVALID, st)
      else if pc_expiresAt pairingCode <? now
      then (Throw PAIRING_CODE_EXPIRED,
            withPairingCodes st (delete code (pairingCodes st)))
      else if SESSION_MAX_PER_USER cfg <=? JsMap.size (sessions st)
      then (Throw SESSION_LIMIT_REACHED, st)
      else
        let session :=
          {| id := sessionId;
             token := token;
             deviceName := orDefault (pc_deviceName pairingCode) "Unknown Device";
             createdAt := now;
             lastUsedAt := now;
             expiresAt := now + SESSION_TOKEN_EXPIRY cfg * 1000;
             ipAddress := orElse ipAddress (pc_ipAddress pairingCode);
             userAgent := None |} in
        let st1 := withSessions st (JsMap.set sessionId session (sessions st)) in
        let st2 := withPairingCodes st1 (delete code (pairingCodes st1)) in
        (Ok session, saveSessions st2)
  end.

(** ** Session store *)

(** The [for ... of this.sessions.entries()] scan: the first entry whose
    token matches. *)
Fixpoint findByToken (tok : string) (m : JsMap.t Session)
  : option (string * Session) :=
  match m with
  | [] => None
  | (k, s) :: m' =>
      if String.eqb (token s) tok then Some (k, s) else findByToken tok m'
  end.

Definition setLastUsedAt (s : Session) (t : Z) : Session :=
  {| id := id s; token := token s; deviceName := deviceName s;
     createdAt := createdAt s; lastUsedAt := t; expiresAt := expiresAt s;
     ipAddress := ipAddress s; userAgent := userAgent s |}.

Definition setExpiresAt (s : Session) (t : Z) : Session :=
  {| id := id s; token := token s; deviceName := deviceName s;
     createdAt := createdAt s; lastUsedAt := lastUsedAt s; expiresAt := t;
     ipAddress := ipAddress s; userAgent := userAgent s |}.

(** The session object after the two assignments of a successful
    validation. *)
Definition touch (cfg : Config) (now : Z) (s : Session) : Session :=
  let s1 := setLastUsedAt s now in
  if SESSION_SLIDING_EXPIRY cfg
  then setExpiresAt s1 (now + SESSION_TOKEN_EXPIRY cfg * 1000)
  else s1.

(** [None] is JavaScript's [null].  The session found is an object held by
    the map: assigning to its fields updates the entry in place.  This is
    the call whose [await this.saveSessions()] resolves; [validateSessionIO]
    below covers the one that rejects. *)
Definition validateSession (cfg : Config) (now : Z) (tok : string) (st : State)
  : option Session * State :=
  match findByToken tok (sessions st) with
  | None => (None, st)
  | Some (k, session) =>
      if expiresAt session <? now
      then (None, saveSessions (withSessions st (JsMap.delete k (sessions st))))
      else
        let session' := touch cfg now session in
        (Some session',
         saveSessions (withSessions st (JsMap.set k session' (sessions st))))
  end.

Definition getSessions (now : Z) (st : State) : list Session * State :=
  let st1 := cleanupExpiredSessions now st in
  (JsMap.values (sessions st1), st1).

Definition getSession (sessionId : string) (st : State) : option Session :=
  JsMap.get sessionId (sessions st).

Definition revokeSession (sessionId : string) (st : State) : bool * State :=
  let deleted := JsMap.has sessionId (sessions st) in
  if deleted
  then (true, saveSessions (withSessions st (JsMap.delete sessionId (sessions st))))
  else (false, st).

Definition revokeAllSessions (st : State) : Z * State :=
  (JsMap.size (sessions st), saveSessions (withSessions st [])).

(** ** Operations as data, for reasoning about whole runs *)

Inductive Op : Type :=
| OpInitiate (deviceName ipAddress : option string) (code sessionId : string)
| OpComplete (code sessionId : string) (ipAddress : option string) (token : string)
| OpValidate (token : string)
| OpList
| OpGet (sessionId : string)
| OpRevoke (sessionId : string)
| OpRevokeAll
| OpCleanup.

(** The state left by one operation performed at time [now]. *)
Definition exec (cfg : Config) (now : Z) (op : Op) (st : State) : State :=
  match op with
  | OpInitiate dn ip code sid => snd (initiatePairing cfg now dn ip code sid st)
  | OpComplete code sid ip tok => snd (completePairing cfg now code sid ip tok st)
  | OpValidate tok => snd (validateSession cfg now tok st)
  | OpList => snd (getSessions now st)
  | OpGet _ => st
  | OpRevoke sid => snd (revokeSession sid st)
  | OpRevokeAll => snd (revokeAllSessions st)
  | OpCleanup => cleanupTick now st
  end.

(** A run is a list of operations, each with the clock reading at which it
    is performed. *)
Fixpoint run (cfg : Config) (tr : list (Z * Op)) (st : State) : State :=
  match tr with
  | [] => st
  | (now, op) :: tr' => run cfg tr' (exec cfg now op st)
  end.


(** ** Drivers: repeated calls *)

(** Several validations of one token in a row, at the given times. *)
Fixpoint validateMany (cfg : Config) (times : list Z) (tok : string) (st : State)
  : list (option Session) * State :=
  match times with
  | [] => ([], st)
  | t :: ts =>
      let '(r, st1) := validateSession cfg t tok st in
      let '(rs, st2) := validateMany cfg ts tok st1 in
      (r :: rs, st2)
  end.

(** One [initiatePairing] request: the clock reading, the device name and
    the two random draws. *)
Record InitiateCall : Type := mkInitiateCall {
  ic_now : Z;
  ic_deviceName : option string;
  ic_code : string;
  ic_sessionId : string
}.

(** Consecutive [initiatePairing] calls from one origin address. *)
Fixpoint initiateAll (cfg : Config) (ip : string) (calls : list InitiateCall)
    (st : State) : list (Result InitiateResult) * State :=
  match calls with
  | [] => ([], st)
  | c :: cs =>
      let '(r, st1) :=
        initiatePairing cfg (ic_now c) (ic_deviceName c) (Some ip)
                        (ic_code c) (ic_sessionId c) st in
      let '(rs, st2) := initiateAll cfg ip cs st1 in
      (r :: rs, st2)
  end.

Definition thrown {A} (r : Result A) : option ErrorCode :=
  match r with Ok _ => None | Throw e => Some e end.

Definition thrownOrSession {A} (r : Result A) : option A :=
  match r with Ok a => Some a | Throw _ => None end.

(** The window of [ip] is closed at [now]: there is no entry, or its
    [resetAt] has passed. *)
Definition windowClosed (now : Z) (ip : string) (st : State) : Prop :=
  match rateLimitMap st !! ip with
  | None => True
  | Some limit => resetAt limit < now
  end.

(** ** Code generator ([generatePairingCode]) *)

(** The alphabet of the pairing codes. *)
Definition chars : string := "ABCDEFGHJKLMNPQRSTUVWXYZ23456789".

(** [chars[k]] as used by [code += chars[k]]: the character at index [k],
    or the text of [undefined] when [k] is out of range. *)
Definition charsAt (k : nat) : string :=
  match String.get k chars with
  | Some c => String c EmptyString
  | None => "undefined"
  end.

(** The loop of [generatePairingCode].  [draws] lists, for each iteration,
    the value of [Math.floor(Math.random() * chars.length)]; its length is
    the number of iterations, [PAIRING_CODE_LENGTH]. *)
Definition generatePairingCode (draws : list nat) : string :=
  List.fold_left (fun code k => String.append code (charsAt k)) draws "".

(** ** Start-up ([initializeStorage]) *)

(** The loop over the parsed file: [this.sessions.set(session.id, ...)]. *)
Definition loadSessions (file : list Session) : JsMap.t Session :=
  List.fold_left (fun m s => JsMap.set (id s) s m) file [].

(** [file] is the parsed content of [sessions.json], or [None] when the
    file cannot be read or parsed (the inner [catch]).  The pairing codes
    and the rate-limit windows start empty. *)
Definition initializeStorage (now : Z) (file : option (list Session)) : State :=
  let st0 :=
    match file with
    | Some l => {| pairingCodes := ∅; sessions := loadSessions l;
                   rateLimitMap := ∅; sessionsFile := l |}
    | None => initialState
    end in
  cleanupExpiredSessions now st0.

(** ** The session guard ([middleware/session-auth.ts]) *)

(** The two environment switches read by the guard and by the routes. *)
Record GuardConfig : Type := mkGuardConfig {
  SESSION_IP_BINDING : bool;
  SESSION_USER_AGENT_CHECK : bool
}.

(** What the guard reads of a request: the [authorization] header, [req.ip],
    [req.socket.remoteAddress] and the [user-agent] header. *)
Record Request : Type := mkRequest {
  req_authorization : option string;
  req_ip : option string;
  req_remoteAddress : option string;
  req_userAgent : option string
}.

(** [req.session]. *)
Record SessionInfo : Type := mkSessionInfo {
  si_id : string;
  si_deviceName : string
}.

(** A JSON error reply: HTTP status, [code] and [error] text. *)
Record Reply : Type := mkReply {
  status : Z;
  code : option ErrorCode;
  error : string
}.

(** The guard either calls [next()], with [req.session] set or not, or
    answers itself. *)
Inductive GuardOutcome : Type :=
| Next (session : option SessionInfo)
| Answer (reply : Reply).

(** [s.substring(n)]. *)
Fixpoint substringFrom (n : nat) (s : string) : string :=
  match n, s with
  | O, _ => s
  | S n', String _ s' => substringFrom n' s'
  | S _, EmptyString => EmptyString
  end.

(** [a !== b] between a possibly undefined string and a string. *)
Definition strictNe (a b : option string) : bool :=
  match a, b with
  | Some x, Some y => negb (String.eqb x y)
  | None, None => false
  | _, _ => true
  end.

(** The bearer token of a request: [Some] when the header is present and
    starts with ['Bearer '], the rest of the header then. *)
Definition bearerToken (req : Request) : option string :=
  match req_authorization req with
  | Some h =>
      if negb (String.eqb h "") && String.prefix "Bearer " h
      then Some (substringFrom 7 h) else None
  | None => None
  end.

Definition infoOf (s : Session) : SessionInfo :=
  {| si_id := id s; si_deviceName := deviceName s |}.

(** The guard on the path where [validateSession] resolves; [sessionAuthIO]
    below adds the [.catch] taken when it rejects. *)
Definition sessionAuth (g : GuardConfig) (cfg : Config) (now : Z)
    (req : Request) (st : State) : GuardOutcome * State :=
  match bearerToken req with
  | None =>
      (Answer {| status := 401; code := Some UNAUTHORIZED;
                 error := "Missing or invalid authorization header" |}, st)
  | Some tok =>
      match validateSession cfg now tok st with
      | (None, st1) =>
          (Answer {| status := 401; code := Some SESSION_INVALID;
                     error := "Invalid or expired session token" |}, st1)
      | (Some session, st1) =>
          let clientIp := orElse (req_ip req) (req_remoteAddress req) in
          if SESSION_IP_BINDING g && truthy (ipAddress session)
             && strictNe clientIp (ipAddress session)
          then (Answer {| status := 401; code := Some SESSION_INVALID;
                          error := "Session IP mismatch" |}, st1)
          else if SESSION_USER_AGENT_CHECK g && truthy (userAgent session)
                  && strictNe (req_userAgent req) (userAgent session)
          then (Answer {| status := 401; code := Some SESSION_INVALID;
                          error := "Session user agent mismatch" |}, st1)
          else (Next (Some (infoOf session)), st1)
      end
  end.

Definition optionalSessionAuth (cfg : Config) (now : Z)
    (req : Request) (st : State) : GuardOutcome * State :=
  match bearerToken req with
  | None => (Next None, st)
  | Some tok =>
      match validateSession cfg now tok st with
      | (None, st1) => (Next None, st1)
      | (Some session, st1) => (Next (Some (infoOf session)), st1)
      end
  end.

(** ** Routes of the pairing router *)

Definition setUserAgent (s : Session) (ua : option string) : Session :=
  {| id := id s; token := token s; deviceName := deviceName s;
     createdAt := createdAt s; lastUsedAt := lastUsedAt s;
     expiresAt := expiresAt s; ipAddress := ipAddress s; userAgent := ua |}.

Definition errorReply (st : Z) (c : ErrorCode) (msg : string) : Reply :=
  {| status := st; code := Some c; error := msg |}.

(** [POST /complete].  [bodyCode] and [bodySessionId] are the two fields of
    the request body.  The session returned by [completePairing] is the
    object held by the map, so the assignment to [session.userAgent] changes
    the stored entry; nothing is written to [sessions.json] after it.  This
    is the handler on a body of strings whose write succeeds;
    [routeCompleteIO] below is the handler on any body and any write. *)
Definition routeComplete (g : GuardConfig) (cfg : Config) (now : Z)
    (bodyCode bodySessionId : option string) (req : Request) (tok : string)
    (st : State) : (Reply + Session) * State :=
  match bodyCode, bodySessionId with
  | Some c, Some sid =>
      if negb (truthy bodyCode) || negb (truthy bodySessionId)
      then (inl {| status := 400; code := None;
                   error := "Missing code or sessionId" |}, st)
      else
        let ip := orElse (req_ip req) (req_remoteAddress req) in
        match completePairing cfg now c sid ip tok st with
        | (Ok session, st1) =>
            if truthy (req_userAgent req) && SESSION_USER_AGENT_CHECK g
            then
              let session' := setUserAgent session (req_userAgent req) in
              (inr session',
               withSessions st1 (JsMap.set sid session' (sessions st1)))
            else (inr session, st1)
        | (Throw PAIRING_CODE_INVALID, st1) =>
            (inl (errorReply 400 PAIRING_CODE_INVALID "Invalid pairing code"), st1)
        | (Throw PAIRING_CODE_EXPIRED, st1) =>
            (inl (errorReply 400 PAIRING_CODE_EXPIRED "Pairing code has expired"), st1)
        | (Throw SESSION_LIMIT_REACHED, st1) =>
            (inl (errorReply 400 SESSION_LIMIT_REACHED
                             "Maximum number of sessions reached"), st1)
        | (Throw _, st1) =>
            (inl {| status := 500; code := None; error := "Internal server error" |},
             st1)
        end
  | _, _ => (inl {| status := 400; code := None;
                    error := "Missing code or sessionId" |}, st)
  end.







(** ** The awaited write and its failure *)

(** How an awaited call settles: it returns a value, it throws one of the
    [ERROR_CODES], or it fails with another error (a rejected
    [saveSessions], a [TypeError]). *)
Inductive Settled (A : Type) : Type :=
| Returned (a : A)
| Threw (e : ErrorCode)
| Failed.
Arguments Returned {A} a.
Arguments Threw {A} e.
Arguments Failed {A}.

Definition withSessionsFile (st : State) (f : list Session) : State :=
  {| pairingCodes := pairingCodes st; sessions := sessions st;
     rateLimitMap := rateLimitMap st; sessionsFile := f |}.

(** [validateSession] with the outcome of [await this.saveSessions()]:
    [saveOk] tells whether it resolves.  It rejects when [fs.writeFile]
    fails or when [toISOString] throws on a stored date; nothing catches
    that, so the call rejects, after the map has been changed.  The file
    is then left as it was. *)
Definition validateSessionIO (saveOk : bool) (cfg : Config) (now : Z)
    (tok : string) (st : State) : Settled (option Session) * State :=
  match findByToken tok (sessions st) with
  | None => (Returned None, st)
  | Some (k, session) =>
      if expiresAt session <? now
      then
        let st1 := withSessions st (JsMap.delete k (sessions st)) in
        if saveOk then (Returned None, saveSessions st1) else (Failed, st1)
      else
        let session' := touch cfg now session in
        let st1 := withSessions st (JsMap.set k session' (sessions st)) in
        if saveOk then (Returned (Some session'), saveSessions st1)
        else (Failed, st1)
  end.

(** [completePairing] with the outcome of [await this.saveSessions()]. *)
Definition completePairingIO (saveOk : bool) (cfg : Config) (now : Z)
    (code sessionId : string) (ipAddress : option string) (token : string)
    (st : State) : Settled Session * State :=
  match pairingCodes st !! toUpperCase code with
  | None => (Threw PAIRING_CODE_INVALID, st)
  | Some pairingCode =>
      if negb (String.eqb (pc_sessionId pairingCode) sessionId)
      then (Threw PAIRING_CODE_INVALID, st)
      else if pc_expiresAt pairingCode <? now
      then (Threw PAIRING_CODE_EXPIRED,
            withPairingCodes st (delete code (pairingCodes st)))
      else if SESSION_MAX_PER_USER cfg <=? JsMap.size (sessions st)
      then (Threw SESSION_LIMIT_REACHED, st)
      else
        let session :=
          {| id := sessionId;
             token := token;
             deviceName := orDefault (pc_deviceName pairingCode) "Unknown Device";
             createdAt := now;
             lastUsedAt := now;
             expiresAt := now + SESSION_TOKEN_EXPIRY cfg * 1000;
             ipAddress := orElse ipAddress (pc_ipAddress pairingCode);
             userAgent := None |} in
        let st1 := withSessions st (JsMap.set sessionId session (sessions st)) in
        let st2 := withPairingCodes st1 (delete code (pairingCodes st1)) in
        if saveOk then (Returned session, saveSessions st2) else (Failed, st2)
  end.

(** The guard with its [.catch]: when [validateSession] rejects, the answer
    is a 500 without a code. *)
Definition sessionAuthIO (saveOk : bool) (g : GuardConfig) (cfg : Config)
    (now : Z) (req : Request) (st : State) : GuardOutcome * State :=
  match bearerToken req with
  | None =>
      (Answer {| status := 401; code := Some UNAUTHORIZED;
                 error := "Missing or invalid authorization header" |}, st)
  | Some tok =>
      match validateSessionIO saveOk cfg now tok st with
      | (Returned None, st1) =>
          (Answer {| status := 401; code := Some SESSION_INVALID;
                     error := "Invalid or expired session token" |}, st1)
      | (Returned (Some session), st1) =>
          let clientIp := orElse (req_ip req) (req_remoteAddress req) in
          if SESSION_IP_BINDING g && truthy (ipAddress session)
             && strictNe clientIp (ipAddress session)
          then (Answer {| status := 401; code := Some SESSION_INVALID;
                          error := "Session IP mismatch" |}, st1)
          else if SESSION_USER_AGENT_CHECK g && truthy (userAgent session)
                  && strictNe (req_userAgent req) (userAgent session)
          then (Answer {| status := 401; code := Some SESSION_INVALID;
                          error := "Session user agent mismatch" |}, st1)
          else (Next (Some (infoOf session)), st1)
      | (_, st1) =>
          (Answer {| status := 500; code := None;
                     error := "Failed to validate session" |}, st1)
      end
  end.

(** A field of a parsed JSON body: a string, or any other value
    ([undefined], [null], a number, a boolean, an object), of which only the
    truthiness matters. *)
Inductive JsValue : Type :=
| JString (s : string)
| JOther (isTruthy : bool).

Definition jsTruthy (v : JsValue) : bool :=
  match v with
  | JString s => negb (String.eqb s "")
  | JOther b => b
  end.

(** What the handler of a route does with a request: it answers with an
    error reply, it answers with the session (and its token), or it hands
    the error to [next(error)]. *)
Inductive RouteOutcome : Type :=
| Replied (r : Reply)
| Success (session : Session)
| Forwarded.

(** [POST /complete] on any body.  A truthy [code] that is not a string
    makes the first statement of [completePairing] ([code.substring]) raise
    a [TypeError], before anything is read or changed.  A truthy
    [sessionId] that is not a string differs ([!==]) from every stored
    correlation id, so both checks of [completePairing] end in
    [PAIRING_CODE_INVALID].  Errors other than the three codes the handler
    knows go to [next(error)]. *)
Definition routeCompleteIO (saveOk : bool) (g : GuardConfig) (cfg : Config)
    (now : Z) (bodyCode bodySessionId : JsValue) (req : Request)
    (tok : string) (st : State) : RouteOutcome * State :=
  if negb (jsTruthy bodyCode) || negb (jsTruthy bodySessionId)
  then (Replied {| status := 400; code := None;
                   error := "Missing code or sessionId" |}, st)
  else
    match bodyCode, bodySessionId with
    | JOther _, _ => (Forwarded, st)
    | JString _, JOther _ =>
        (Replied (errorReply 400 PAIRING_CODE_INVALID "Invalid pairing code"), st)
    | JString c, JString sid =>
        let ip := orElse (req_ip req) (req_remoteAddress req) in
        match completePairingIO saveOk cfg now c sid ip tok st with
        | (Returned session, st1) =>
            if truthy (req_userAgent req) && SESSION_USER_AGENT_CHECK g
            then
              let session' := setUserAgent session (req_userAgent req) in
              (Success session',
               withSessions st1 (JsMap.set sid session' (sessions st1)))
            else (Success session, st1)
        | (Threw PAIRING_CODE_INVALID, st1) =>
            (Replied (errorReply 400 PAIRING_CODE_INVALID "Invalid pairing code"),
             st1)
        | (Threw PAIRING_CODE_EXPIRED, st1) =>
            (Replied (errorReply 400 PAIRING_CODE_EXPIRED
                                 "Pairing code has expired"), st1)
        | (Threw SESSION_LIMIT_REACHED, st1) =>
            (Replied (errorReply 400 SESSION_LIMIT_REACHED
                                 "Maximum number of sessions reached"), st1)
        | (_, st1) => (Forwarded, st1)
        end
    end.

(** The first entry, in insertion order, whose session carries [tok]. *)
Definition firstWithToken (tok : string) (m : JsMap.t Session)
    (k : string) (s : Session) : Prop :=
  exists before after,
    m = (before ++ (k, s) :: after)%list
    /\ (forall k' s', List.In (k', s') before -> token s' <> tok)
    /\ token s = tok.

(** ** Store invariants *)

(** Every session is stored under its own [id]. *)
Definition keyed (m : JsMap.t Session) : Prop :=
  forall k s, List.In (k, s) m -> id s = k.

(** [sessions.json] holds the sessions of the map, in order. *)
Definition inSync (st : State) : Prop :=
  sessionsFile st = JsMap.values (sessions st).

(** ** Scenarios *)

Module Scenario.

(** [initiate({deviceName: "phone"})] draws code [A7K9M2] and correlation
    id [s1] at time 1000. *)
Definition pending : State :=
  snd (initiatePairing defaultConfig 1000 (Some "phone") None
                       "A7K9M2" "s1" initialState).

(** The code is then completed as typed in lower case, twice. *)
Definition first_lower : Result Session * State :=
  completePairing defaultConfig 2000 "a7k9m2" "s1" None "tok1" pending.

Definition second_lower : Result Session * State :=
  completePairing defaultConfig 3000 "a7k9m2" "s1" None "tok2"
                  (snd first_lower).

(** The same, with the code as generated. *)
Definition first_exact : Result Session * State :=
  completePairing defaultConfig 2000 "A7K9M2" "s1" None "tok1" pending.

(** The code expires at 301000; a completion attempt one millisecond
    later, in lower case. *)
Definition late_lower : Result Session * State :=
  completePairing defaultConfig 301001 "a7k9m2" "s1" None "tok1" pending.

(** A service limited to two sessions, with two devices paired and a
    third pairing pending. *)
Definition cfgTwo : Config :=
  {| PAIRING_CODE_EXPIRY := 300;
     PAIRING_MAX_ATTEMPTS := 3;
     SESSION_MAX_PER_USER := 2;
     SESSION_TOKEN_EXPIRY := 2592000;
     SESSION_SLIDING_EXPIRY := false |}.

Definition cfgSliding : Config :=
  {| PAIRING_CODE_EXPIRY := 300;
     PAIRING_MAX_ATTEMPTS := 3;
     SESSION_MAX_PER_USER := 10;
     SESSION_TOKEN_EXPIRY := 2592000;
     SESSION_SLIDING_EXPIRY := true |}.

Definition twoPaired : State :=
  run cfgTwo
    [ (1000, OpInitiate (Some "phone") (Some "10.0.0.7") "A7K9M2" "s1");
      (2000, OpComplete "A7K9M2" "s1" (Some "10.0.0.7") "tok1");
      (3000, OpInitiate (Some "tablet") (Some "10.0.0.8") "B8L2N3" "s2");
      (4000, OpComplete "B8L2N3" "s2" (Some "10.0.0.8") "tok2");
      (5000, OpInitiate (Some "laptop") (Some "10.0.0.9") "C9M3P4" "s3") ]
    initialState.

(** One device paired under the default configuration. *)
Definition onePaired : State := snd first_exact.

Definition call (now : Z) (code sid : string) : InitiateCall :=
  {| ic_now := now; ic_deviceName := Some "phone";
     ic_code := code; ic_sessionId := sid |}.


(** The session touched by validating [tok1] at time 5000. *)
Definition touched : Session :=
  {| id := "s1"; token := "tok1"; deviceName := "phone";
     createdAt := 2000; lastUsedAt := 5000; expiresAt := 2592002000;
     ipAddress := None; userAgent := None |}.

Definition validated : option Session * State :=
  validateSession defaultConfig 5000 "tok1" onePaired.

(** What [initiatePairing] returned for the phone, and the session its
    completion at time 2000 created. *)
Definition phoneInitiated : InitiateResult :=
  {| ir_code := "A7K9M2"; ir_sessionId := "s1"; ir_expiresIn := 300 |}.

Definition phoneSession : Session :=
  {| id := "s1"; token := "tok1"; deviceName := "phone";
     createdAt := 2000; lastUsedAt := 2000; expiresAt := 2592002000;
     ipAddress := None; userAgent := None |}.

(** Long after both sessions of [twoPaired] have expired, and before any
    sweep, a third device starts pairing. *)
Definition twoExpired : State :=
  snd (initiatePairing cfgTwo 2600000000 (Some "watch") (Some "10.0.0.9")
                       "D2Q4R5" "s4" twoPaired).

Definition watchCode : PairingCode :=
  {| pc_code := "D2Q4R5"; pc_sessionId := "s4";
     pc_createdAt := 2600000000; pc_expiresAt := 2600300000;
     pc_deviceName := Some "watch"; pc_ipAddress := Some "10.0.0.9" |}.

End Scenario.

(** * Properties *)

(** ** The ordered map *)

Module JsMapFacts.
Import JsMap.
Section Facts.
Context {V : Type}.
Implicit Types (m : JsMap.t V) (k : string) (v : V).

Lemma get_set_eq k v m : get k (set k v m) = Some v.
Proof.
  induction m as [|[k' v'] m IH]; simpl.
  - now rewrite String.eqb_refl.
  - destruct (String.eqb k k') eqn:E; simpl; rewrite ?String.eqb_refl, ?E; auto.
Qed.

Lemma get_set_ne k k' v m : k <> k' -> get k' (set k v m) = get k' m.
Proof.
  intros Hne. induction m as [|[k0 v0] m IH]; simpl.
  - destruct (String.eqb_spec k' k); congruence.
  - destruct (String.eqb_spec k k0) as [->|Hk]; simpl.
    + destruct (String.eqb_spec k' k0); congruence.
    + now rewrite IH.
Qed.

Lemma get_delete_eq k m : get k (delete k m) = None.
Proof.
  unfold delete. induction m as [|[k0 v0] m IH]; simpl; auto.
  destruct (String.eqb k k0) eqn:E; simpl; auto. now rewrite E.
Qed.


Lemma In_delete k k' v m :
  List.In (k', v) (delete k m) <-> List.In (k', v) m /\ k <> k'.
Proof.
  unfold delete. rewrite List.filter_In. simpl.
  destruct (String.eqb_spec k k'); simpl; intuition congruence.
Qed.

Lemma length_set k v m :
  (List.length m <= List.length (set k v m) <= S (List.length m))%nat.
Proof.
  induction m as [|[k0 v0] m IH]; simpl; [lia|].
  destruct (String.eqb k k0); simpl; lia.
Qed.

Lemma length_delete k m : (List.length (delete k m) <= List.length m)%nat.
Proof. apply List.filter_length_le. Qed.

Lemma size_set_le k v m : size (set k v m) <= size m + 1.
Proof. unfold size. pose proof (length_set k v m). lia. Qed.

Lemma size_delete_le k m : size (delete k m) <= size m.
Proof. unfold size. pose proof (length_delete k m). lia. Qed.

Lemma size_filter_le (f : string * V -> bool) m :
  size (List.filter f m) <= size m.
Proof. unfold size. pose proof (List.filter_length_le f m). lia. Qed.

Lemma get_In k v m : get k m = Some v -> List.In (k, v) m.
Proof.
  induction m as [|[k0 v0] m IH]; simpl; [discriminate|].
  destruct (String.eqb_spec k k0) as [->|Hk].
  - intros [= ->]. now left.
  - intros H. right. auto.
Qed.

Lemma get_None_not_In k m : get k m = None -> forall v, ~ List.In (k, v) m.
Proof.
  induction m as [|[k0 v0] m IH]; simpl; [tauto|].
  destruct (String.eqb_spec k k0) as [->|Hk]; [discriminate|].
  intros H v [[= -> ->]|Hin]; [congruence|]. eapply IH; eauto.
Qed.


Lemma keys_set k v m : forall k', List.In k' (keys (set k v m)) -> k' = k \/ List.In k' (keys m).
Proof.
  unfold keys. induction m as [|[k0 v0] m IH]; simpl; intros k'.
  - intuition.
  - destruct (String.eqb_spec k k0) as [->|Hk]; simpl; [intuition|].
    intros [->|Hin]; [auto|]. destruct (IH _ Hin); auto.
Qed.

Lemma wf_set k v m : wf m -> wf (set k v m).
Proof.
  unfold wf. induction m as [|[k0 v0] m IH]; simpl.
  - intros _. unfold keys. simpl. constructor; [simpl; tauto|constructor].
  - unfold keys in *. simpl. intros Hnd.
    apply List.NoDup_cons_iff in Hnd as [Hni Hnd].
    destruct (String.eqb_spec k k0) as [->|Hk]; simpl.
    + constructor; auto.
    + constructor; auto. intros Hin.
      destruct (keys_set k v m k0 Hin) as [E|E]; [congruence | now apply Hni].
Qed.

Lemma wf_filter (f : string * V -> bool) m : wf m -> wf (List.filter f m).
Proof.
  unfold wf, keys. induction m as [|[k0 v0] m IH]; simpl; auto.
  intros Hnd. apply List.NoDup_cons_iff in Hnd as [Hni Hnd].
  destruct (f (k0, v0)); simpl; auto.
  constructor; auto. intros Hin. apply Hni.
  apply List.in_map_iff in Hin as [[k1 v1] [Hk Hin]].
  apply List.filter_In in Hin as [Hin _].
  apply List.in_map_iff. now exists (k1, v1).
Qed.

Lemma wf_delete k m : wf m -> wf (delete k m).
Proof. apply wf_filter. Qed.

End Facts.
End JsMapFacts.

(** ** Frame facts: which store each operation touches *)

Lemma findByToken_In tok m k s :
  findByToken tok m = Some (k, s) -> List.In (k, s) m /\ token s = tok.
Proof.
  induction m as [|[k0 s0] m IH]; simpl; [discriminate|].
  destruct (String.eqb_spec (token s0) tok) as [E|E].
  - intros [= -> ->]. auto.
  - intros H. destruct (IH H). auto.
Qed.

Lemma findByToken_None tok m :
  findByToken tok m = None <-> (forall k s, List.In (k, s) m -> token s <> tok).
Proof.
  induction m as [|[k0 s0] m IH]; simpl.
  - split; [tauto|auto].
  - destruct (String.eqb_spec (token s0) tok) as [E|E].
    + split; [discriminate|]. intros H. exfalso. apply (H k0 s0); auto.
    + rewrite IH. split.
      * intros H k s [[= -> ->]|Hin]; eauto.
      * intros H k s Hin. apply (H k s). auto.
Qed.

Lemma length_set_present {V} k (v v0 : V) (m : JsMap.t V) :
  List.In (k, v0) m -> List.length (JsMap.set k v m) = List.length m.
Proof.
  induction m as [|[k1 v1] m IH]; simpl; [tauto|].
  destruct (String.eqb_spec k k1) as [->|Hk]; simpl; auto.
  intros [[= -> ->]|Hin]; [congruence|]. now rewrite IH.
Qed.

Lemma checkRateLimit_frame cfg now ip st :
  pairingCodes (snd (checkRateLimit cfg now ip st)) = pairingCodes st
  /\ sessions (snd (checkRateLimit cfg now ip st)) = sessions st
  /\ sessionsFile (snd (checkRateLimit cfg now ip st)) = sessionsFile st.
Proof.
  unfold checkRateLimit.
  destruct (rateLimitMap st !! ip) as [limit|]; simpl; auto.
  destruct (resetAt limit <? now); simpl; auto.
  destruct (PAIRING_MAX_ATTEMPTS cfg <=? attempts limit); simpl; auto.
Qed.

Lemma initiatePairing_sessions cfg now dn ip code sid st :
  sessions (snd (initiatePairing cfg now dn ip code sid st)) = sessions st.
Proof.
  unfold initiatePairing.
  destruct ip as [a|]; simpl.
  - destruct (negb (String.eqb a "")); simpl.
    + pose proof (checkRateLimit_frame cfg now a st) as (_ & Hs & _).
      destruct (checkRateLimit cfg now a st) as [[|] st1]; simpl in *; auto.
    + reflexivity.
  - reflexivity.
Qed.

(** The four ways [completePairing] can end, by the checks of the source in
    their order. *)
Lemma completePairing_cases cfg now code sid ip tok st :
  let r := completePairing cfg now code sid ip tok st in
  (pairingCodes st !! toUpperCase code = None
   /\ r = (Throw PAIRING_CODE_INVALID, st))
  \/ (exists pc, pairingCodes st !! toUpperCase code = Some pc
      /\ pc_sessionId pc <> sid
      /\ r = (Throw PAIRING_CODE_INVALID, st))
  \/ (exists pc, pairingCodes st !! toUpperCase code = Some pc
      /\ pc_sessionId pc = sid /\ pc_expiresAt pc < now
      /\ r = (Throw PAIRING_CODE_EXPIRED,
              withPairingCodes st (delete code (pairingCodes st))))
  \/ (exists pc, pairingCodes st !! toUpperCase code = Some pc
      /\ pc_sessionId pc = sid /\ now <= pc_expiresAt pc
      /\ SESSION_MAX_PER_USER cfg <= JsMap.size (sessions st)
      /\ r = (Throw SESSION_LIMIT_REACHED, st))
  \/ (exists pc s, pairingCodes st !! toUpperCase code = Some pc
      /\ pc_sessionId pc = sid /\ now <= pc_expiresAt pc
      /\ JsMap.size (sessions st) < SESSION_MAX_PER_USER cfg
      /\ id s = sid /\ token s = tok
      /\ lastUsedAt s = now /\ createdAt s = now
      /\ expiresAt s = now + SESSION_TOKEN_EXPIRY cfg * 1000
      /\ r = (Ok s,
              saveSessions
                (withPairingCodes
                   (withSessions st (JsMap.set sid s (sessions st)))
                   (delete code (pairingCodes st))))).
Proof.
  unfold completePairing.
  destruct (pairingCodes st !! toUpperCase code) as [pc|] eqn:Hpc; [|left; auto].
  right.
  destruct (String.eqb_spec (pc_sessionId pc) sid) as [Hsid|Hsid]; simpl;
    [|left; eauto].
  right.
  destruct (Z.ltb_spec (pc_expiresAt pc) now) as [Hexp|Hexp];
    [left; exists pc; auto|].
  right.
  destruct (Z.leb_spec (SESSION_MAX_PER_USER cfg) (JsMap.size (sessions st)))
    as [Hcap|Hcap]; [left; exists pc; auto|].
  right. eexists pc, _. repeat split; eauto.
Qed.

(** ** Completing a pairing *)

(** C6. [completePairing] looks the code up under its upper-case form.  It
    throws [PAIRING_CODE_INVALID] exactly when nothing is stored under the
    upper-cased code or the stored [sessionId] (the correlation id) differs
    from the one supplied; when it does, the state is the one it was called
    in: no session is created and no store is changed. *)
Theorem completePairing_invalid_iff cfg now code sid ip tok st :
  (fst (completePairing cfg now code sid ip tok st) = Throw PAIRING_CODE_INVALID
   <-> (pairingCodes st !! toUpperCase code = None
        \/ exists pc, pairingCodes st !! toUpperCase code = Some pc
                      /\ pc_sessionId pc <> sid))
  /\ (fst (completePairing cfg now code sid ip tok st) = Throw PAIRING_CODE_INVALID
      -> snd (completePairing cfg now code sid ip tok st) = st).
Proof.
  destruct (completePairing_cases cfg now code sid ip tok st)
    as [(Hn & ->)|[(pc & Hpc & Hne & ->)|[(pc & Hpc & He & Hx & ->)|
        [(pc & Hpc & He & Hx & Hc & ->)|(pc & s & Hpc & He & Hx & Hc & _ & _ & _ & _ & _ & ->)]]]];
    simpl; (split; [split|]); try discriminate; eauto;
    intros [Hn|(pc' & Hpc' & Hne)]; congruence.
Qed.

(** What [initiatePairing] leaves in the registry: the pairing code is
    stored under the code returned, with the correlation id returned. *)
Lemma initiatePairing_stores cfg now dn ip code sid st r st1 :
  initiatePairing cfg now dn ip code sid st = (Ok r, st1) ->
  ir_code r = code /\ ir_sessionId r = sid
  /\ ir_expiresIn r = PAIRING_CODE_EXPIRY cfg
  /\ exists pc, pairingCodes st1 !! ir_code r = Some pc
                /\ pc_sessionId pc = ir_sessionId r
                /\ pc_expiresAt pc = now + PAIRING_CODE_EXPIRY cfg * 1000
                /\ pc_deviceName pc = dn.
Proof.
  unfold initiatePairing.
  destruct (match ip with
            | Some a => if truthy ip then checkRateLimit cfg now a st else (true, st)
            | None => (true, st)
            end) as [[|] st0]; simpl; [|discriminate].
  intros [= <- <-]. simpl. repeat split.
  eexists. rewrite lookup_insert_eq. split; [reflexivity|]. simpl. auto.
Qed.

(** C9. The session made by a successful [completePairing] carries, as its
    [id], the correlation id that [initiatePairing] returned for the pairing
    code consumed.  That id is the key of the session in the store:
    [getSession] finds the session under it, [getSessions] lists it while it
    has not expired, and [revokeSession] on it removes the session. *)
Theorem session_id_is_correlation_id
    cfg t0 dn ip0 code0 sid0 st0 r st1 now code sid ip tok st s st' :
  initiatePairing cfg t0 dn ip0 code0 sid0 st0 = (Ok r, st1) ->
  toUpperCase code = ir_code r ->
  pairingCodes st !! ir_code r = pairingCodes st1 !! ir_code r ->
  completePairing cfg now code sid ip tok st = (Ok s, st') ->
  id s = ir_sessionId r
  /\ getSession (ir_sessionId r) st' = Some s
  /\ (forall now', now' <= expiresAt s -> List.In s (fst (getSessions now' st')))
  /\ fst (revokeSession (ir_sessionId r) st') = true
  /\ getSession (ir_sessionId r) (snd (revokeSession (ir_sessionId r) st')) = None.
Proof.
  intros Hinit Hup Hsame Hc.
  apply initiatePairing_stores in Hinit
    as (_ & _ & _ & pc0 & Hpc0 & Hsid0 & _).
  rewrite <- Hsame, <- Hup in Hpc0.
  destruct (completePairing_cases cfg now code sid ip tok st)
    as [(Hn & E)|[(pc & Hpc & Hne & E)|[(pc & Hpc & He & Hx & E)|
        [(pc & Hpc & He & Hx & Hcap & E)|
         (pc & s1 & Hpc & He & Hx & Hcap & Hid & _ & _ & _ & _ & E)]]]];
    rewrite Hc in E; try discriminate.
  injection E as <- ->.
  assert (Hkey : ir_sessionId r = id s) by congruence.
  assert (Hsid : sid = id s) by congruence.
  rewrite Hkey, Hsid. clear Hc.
  assert (Hget : JsMap.get (id s) (JsMap.set (id s) s (sessions st)) = Some s)
    by apply JsMapFacts.get_set_eq.
  split; [reflexivity|]. split; [exact Hget|]. split.
  - intros now' Hlive. unfold getSessions, cleanupExpiredSessions. simpl.
    match goal with
    | |- context [List.filter ?f ?m] =>
        assert (Hin : List.In (id s, s) (List.filter f m))
    end.
    { apply List.filter_In. split; [now apply JsMapFacts.get_In|].
      simpl. unfold sessionExpired. destruct (Z.ltb_spec (expiresAt s) now'); [lia|reflexivity]. }
    match goal with
    | |- context [if ?b then _ else _] => destruct b
    end; simpl; unfold JsMap.values; apply List.in_map_iff; exists (id s, s); auto.
  - unfold revokeSession, getSession, JsMap.has. simpl. rewrite Hget. simpl.
    split; [reflexivity|]. apply JsMapFacts.get_delete_eq.
Qed.

(** C10. The capacity check counts what the map holds, expired or not: when
    the store holds [SESSION_MAX_PER_USER] sessions that have all expired and
    not been swept (so that [getSessions] at that moment would list none), a
    [completePairing] call whose code is stored, matches and has not
    expired throws [SESSION_LIMIT_REACHED] and changes nothing. *)
Theorem capacity_counts_expired cfg now code sid ip tok st pc :
  JsMap.size (sessions st) = SESSION_MAX_PER_USER cfg ->
  (forall k s, List.In (k, s) (sessions st) -> expiresAt s < now) ->
  pairingCodes st !! toUpperCase code = Some pc ->
  pc_sessionId pc = sid ->
  now <= pc_expiresAt pc ->
  completePairing cfg now code sid ip tok st = (Throw SESSION_LIMIT_REACHED, st)
  /\ fst (getSessions now st) = [].
Proof.
  intros Hfull Hexp Hpc Hsid Hlive. split.
  - unfold completePairing. rewrite Hpc, Hsid, String.eqb_refl. simpl.
    destruct (Z.ltb_spec (pc_expiresAt pc) now); [lia|].
    destruct (Z.leb_spec (SESSION_MAX_PER_USER cfg) (JsMap.size (sessions st)));
      [reflexivity|lia].
  - unfold getSessions, cleanupExpiredSessions.
    assert (Hnil : List.filter (fun kv => negb (sessionExpired now (snd kv)))
                     (sessions st) = []).
    { clear -Hexp. induction (sessions st) as [|[k s] m IH]; simpl; auto.
      unfold sessionExpired at 1. simpl.
      destruct (Z.ltb_spec (expiresAt s) now) as [_|Hge]; simpl.
      - apply IH. intros k' s' Hin. apply (Hexp k' s'). now right.
      - specialize (Hexp k s (or_introl eq_refl)). lia. }
    rewrite Hnil. destruct (0 <? _)%nat; reflexivity.
Qed.

(** ** The bound on the number of sessions *)

Lemma validateSession_size cfg now tok st :
  JsMap.size (sessions (snd (validateSession cfg now tok st)))
  <= JsMap.size (sessions st).
Proof.
  unfold validateSession.
  destruct (findByToken tok (sessions st)) as [[k s]|] eqn:Hf; simpl; [|lia].
  apply findByToken_In in Hf as [Hin _].
  destruct (expiresAt s <? now); simpl.
  - apply JsMapFacts.size_delete_le.
  - unfold JsMap.size. erewrite length_set_present; eauto. lia.
Qed.

Lemma cleanupExpiredSessions_sessions now st :
  sessions (cleanupExpiredSessions now st)
  = List.filter (fun kv => negb (sessionExpired now (snd kv))) (sessions st).
Proof.
  unfold cleanupExpiredSessions. destruct (0 <? _)%nat; reflexivity.
Qed.

Lemma completePairing_size cfg now code sid ip tok st :
  JsMap.size (sessions st) <= SESSION_MAX_PER_USER cfg ->
  JsMap.size (sessions (snd (completePairing cfg now code sid ip tok st)))
  <= SESSION_MAX_PER_USER cfg.
Proof.
  intros Hinv.
  destruct (completePairing_cases cfg now code sid ip tok st)
    as [(_ & ->)|[(pc & _ & _ & ->)|[(pc & _ & _ & _ & ->)|
        [(pc & _ & _ & _ & _ & ->)|
         (pc & s & _ & _ & _ & Hcap & _ & _ & _ & _ & _ & ->)]]]];
    simpl; auto.
  pose proof (JsMapFacts.size_set_le sid s (sessions st)). lia.
Qed.

Lemma exec_size cfg now op st :
  JsMap.size (sessions st) <= SESSION_MAX_PER_USER cfg ->
  JsMap.size (sessions (exec cfg now op st)) <= SESSION_MAX_PER_USER cfg.
Proof.
  intros Hinv.
  destruct op as [dn ip code sid|code sid ip tok|tok| |sessionId|sessionId| |];
    simpl.
  - now rewrite initiatePairing_sessions.
  - now apply completePairing_size.
  - pose proof (validateSession_size cfg now tok st). lia.
  - rewrite cleanupExpiredSessions_sessions.
    pose proof (JsMapFacts.size_filter_le
                  (fun kv => negb (sessionExpired now (snd kv))) (sessions st)).
    lia.
  - exact Hinv.
  - unfold revokeSession. destruct (JsMap.has sessionId (sessions st)); simpl; auto.
    pose proof (JsMapFacts.size_delete_le sessionId (sessions st)). lia.
  - unfold JsMap.size in *. simpl. lia.
  - unfold cleanupTick. simpl. rewrite cleanupExpiredSessions_sessions. simpl.
    pose proof (JsMapFacts.size_filter_le
                  (fun kv => negb (sessionExpired now (snd kv))) (sessions st)).
    lia.
Qed.

Lemma run_size cfg tr : forall st,
  JsMap.size (sessions st) <= SESSION_MAX_PER_USER cfg ->
  JsMap.size (sessions (run cfg tr st)) <= SESSION_MAX_PER_USER cfg.
Proof.
  induction tr as [|[now op] tr IH]; simpl; intros st Hinv; auto.
  apply IH. now apply exec_size.
Qed.

(** C4. The number of sessions held never exceeds [SESSION_MAX_PER_USER]:
    from a store within the bound, every run of operations ends within the
    bound.  At capacity every [completePairing] call throws and leaves the
    sessions as they were (none added, none evicted), and the call whose
    code is stored, matches and has not expired throws
    [SESSION_LIMIT_REACHED] and changes nothing at all. *)
Theorem session_count_bounded cfg st :
  JsMap.size (sessions st) <= SESSION_MAX_PER_USER cfg ->
  (forall tr, JsMap.size (sessions (run cfg tr st)) <= SESSION_MAX_PER_USER cfg)
  /\ (JsMap.size (sessions st) = SESSION_MAX_PER_USER cfg ->
      forall now code sid ip tok,
      exists e st',
        completePairing cfg now code sid ip tok st = (Throw e, st')
        /\ sessions st' = sessions st
        /\ ((exists pc, pairingCodes st !! toUpperCase code = Some pc
                        /\ pc_sessionId pc = sid /\ now <= pc_expiresAt pc)
            -> e = SESSION_LIMIT_REACHED /\ st' = st)).
Proof.
  intros Hinv. split; [intros tr; now apply run_size|].
  intros Hfull now code sid ip tok.
  destruct (completePairing_cases cfg now code sid ip tok st)
    as [(Hn & ->)|[(pc & Hpc & Hne & ->)|[(pc & Hpc & He & Hx & ->)|
        [(pc & Hpc & He & Hx & Hcap & ->)|
         (pc & s & _ & _ & _ & Hcap & _)]]]];
    [..|lia]; eexists _, _; (split; [reflexivity|]); (split; [reflexivity|]);
    intros (pc' & Hpc' & He' & Hx'); try congruence;
    assert (pc' = pc) by congruence; subst pc';
    first [congruence | lia | split; reflexivity].
Qed.

(** ** Validating a token *)

Lemma findByToken_set tok m k s s1 :
  findByToken tok m = Some (k, s) -> token s1 = tok ->
  findByToken tok (JsMap.set k s1 m) = Some (k, s1).
Proof.
  intros Hf Ht. induction m as [|[k0 s0] m IH]; simpl in *; [discriminate|].
  destruct (String.eqb_spec (token s0) tok) as [E|E].
  - injection Hf as -> ->. rewrite String.eqb_refl. simpl.
    rewrite Ht, String.eqb_refl. reflexivity.
  - destruct (String.eqb_spec k k0) as [->|Hk]; simpl.
    + rewrite Ht, String.eqb_refl. reflexivity.
    + destruct (String.eqb_spec (token s0) tok); [contradiction|]. auto.
Qed.

(** The two ways [validateSession] returns [null], and the one way it
    returns a session. *)
Lemma validateSession_cases cfg now tok st :
  let r := validateSession cfg now tok st in
  (findByToken tok (sessions st) = None /\ r = (None, st))
  \/ (exists k s, findByToken tok (sessions st) = Some (k, s)
      /\ expiresAt s < now
      /\ r = (None, saveSessions (withSessions st (JsMap.delete k (sessions st)))))
  \/ (exists k s, findByToken tok (sessions st) = Some (k, s)
      /\ now <= expiresAt s
      /\ r = (Some (touch cfg now s),
              saveSessions
                (withSessions st (JsMap.set k (touch cfg now s) (sessions st))))).
Proof.
  unfold validateSession.
  destruct (findByToken tok (sessions st)) as [[k s]|]; [|left; auto].
  right. destruct (Z.ltb_spec (expiresAt s) now); [left|right]; eauto.
Qed.

Lemma touch_fields cfg now s :
  id (touch cfg now s) = id s
  /\ token (touch cfg now s) = token s
  /\ deviceName (touch cfg now s) = deviceName s
  /\ createdAt (touch cfg now s) = createdAt s
  /\ ipAddress (touch cfg now s) = ipAddress s
  /\ userAgent (touch cfg now s) = userAgent s
  /\ lastUsedAt (touch cfg now s) = now
  /\ expiresAt (touch cfg now s)
     = if SESSION_SLIDING_EXPIRY cfg
       then now + SESSION_TOKEN_EXPIRY cfg * 1000 else expiresAt s.
Proof. unfold touch. destruct (SESSION_SLIDING_EXPIRY cfg); simpl; tauto. Qed.

Lemma validateSession_live cfg now tok st k s :
  findByToken tok (sessions st) = Some (k, s) -> now <= expiresAt s ->
  validateSession cfg now tok st
  = (Some (touch cfg now s),
     saveSessions (withSessions st (JsMap.set k (touch cfg now s) (sessions st)))).
Proof.
  intros Hf Hlive. unfold validateSession. rewrite Hf.
  destruct (Z.ltb_spec (expiresAt s) now); [lia|reflexivity].
Qed.

(** Without sliding expiry, validations made no later than [expiresAt] all
    succeed and all return the same [id] and [expiresAt]. *)
Lemma validateMany_fixed cfg tok times : forall st k s,
  SESSION_SLIDING_EXPIRY cfg = false ->
  findByToken tok (sessions st) = Some (k, s) ->
  List.Forall (fun t => t <= expiresAt s) times ->
  List.Forall (fun r => exists s', r = Some s' /\ id s' = id s
                                   /\ expiresAt s' = expiresAt s)
              (fst (validateMany cfg times tok st)).
Proof.
  induction times as [|t ts IH]; intros st k s Hoff Hf Hts; simpl; [constructor|].
  apply List.Forall_cons_iff in Hts as [Ht Hts].
  rewrite (validateSession_live cfg t tok st k s Hf Ht).
  pose proof (touch_fields cfg t s) as (Hid & Htok & _ & _ & _ & _ & _ & Hexp).
  rewrite Hoff in Hexp.
  specialize (IH (saveSessions
                    (withSessions st (JsMap.set k (touch cfg t s) (sessions st))))
                 k (touch cfg t s) Hoff).
  destruct (validateMany cfg ts tok _) as [rs st2] eqn:Hrest. simpl.
  constructor; [eauto|].
  assert (Hf' : findByToken tok (JsMap.set k (touch cfg t s) (sessions st))
                = Some (k, touch cfg t s)).
  { apply findByToken_In in Hf as Hin. destruct Hin as [_ Hts0].
    eapply findByToken_set; eauto. congruence. }
  specialize (IH Hf'). rewrite Hexp, Hid in IH. simpl in IH. apply IH. exact Hts.
Qed.

(** C7. A successful [validateSession] returns the session found with
    [lastUsedAt] set to now and, apart from [expiresAt], every other field
    as it was; the entry is updated in place and no other entry changes.
    With sliding expiry off [expiresAt] is kept too, and stays the same over
    any number of validations; with sliding expiry on it becomes
    now + [SESSION_TOKEN_EXPIRY] seconds, and a second validation [d]
    seconds later (within the session's lifetime) returns an [expiresAt]
    that is [d] seconds after the first one's. *)
Theorem validate_touches_lastUsedAt cfg now tok st s' st' :
  validateSession cfg now tok st = (Some s', st') ->
  exists k s,
    findByToken tok (sessions st) = Some (k, s)
    /\ id s' = id s /\ token s' = token s /\ deviceName s' = deviceName s
    /\ createdAt s' = createdAt s /\ ipAddress s' = ipAddress s
    /\ userAgent s' = userAgent s
    /\ lastUsedAt s' = now
    /\ JsMap.get k (sessions st') = Some s'
    /\ (forall k', k' <> k ->
          JsMap.get k' (sessions st') = JsMap.get k' (sessions st))
    /\ (SESSION_SLIDING_EXPIRY cfg = false ->
          s' = setLastUsedAt s now
          /\ expiresAt s' = expiresAt s
          /\ forall times,
               List.Forall (fun t => t <= expiresAt s) times ->
               List.Forall (fun r => exists s'', r = Some s'' /\ id s'' = id s
                                                /\ expiresAt s'' = expiresAt s)
                           (fst (validateMany cfg times tok st')))
    /\ (SESSION_SLIDING_EXPIRY cfg = true ->
          expiresAt s' = now + SESSION_TOKEN_EXPIRY cfg * 1000
          /\ forall d, d <= SESSION_TOKEN_EXPIRY cfg ->
               exists s'' st'',
                 validateSession cfg (now + d * 1000) tok st' = (Some s'', st'')
                 /\ id s'' = id s'
                 /\ expiresAt s'' = expiresAt s' + d * 1000).
Proof.
  intros Hv.
  destruct (validateSession_cases cfg now tok st)
    as [(Hn & E)|[(k & s & Hf & Hx & E)|(k & s & Hf & Hx & E)]];
    rewrite Hv in E; try discriminate.
  injection E as -> ->.
  pose proof (touch_fields cfg now s)
    as (Hid & Htok & Hdn & Hcr & Hip & Hua & Hlu & Hexp).
  assert (Hf' : findByToken tok (JsMap.set k (touch cfg now s) (sessions st))
                = Some (k, touch cfg now s)).
  { apply findByToken_In in Hf as Hin. destruct Hin as [_ Hts0].
    eapply findByToken_set; eauto. congruence. }
  exists k, s. repeat (split; [assumption|]).
  split; [apply JsMapFacts.get_set_eq|].
  split; [intros k' Hne; apply JsMapFacts.get_set_ne; congruence|].
  split.
  - intros Hoff. rewrite Hoff in Hexp.
    split; [unfold touch; now rewrite Hoff|]. split; [assumption|].
    intros times Hts.
    pose proof (validateMany_fixed cfg tok times
                  (saveSessions (withSessions st
                     (JsMap.set k (touch cfg now s) (sessions st))))
                  k (touch cfg now s) Hoff Hf') as Hall.
    rewrite Hexp, Hid in Hall. apply Hall. exact Hts.
  - intros Hon. rewrite Hon in Hexp. split; [assumption|].
    intros d Hd.
    eexists _, _. split.
    + apply validateSession_live with (k := k) (s := touch cfg now s).
      * exact Hf'.
      * rewrite Hexp. lia.
    + pose proof (touch_fields cfg (now + d * 1000) (touch cfg now s))
        as (Hid2 & _ & _ & _ & _ & _ & _ & Hexp2).
      rewrite Hon in Hexp2. split; [assumption|]. rewrite Hexp2, Hexp. lia.
Qed.

(** ** Rate limiting *)

Lemma initiatePairing_rateLimitMap cfg now dn ip code sid st :
  ip <> "" ->
  fst (initiatePairing cfg now dn (Some ip) code sid st)
  = (if fst (checkRateLimit cfg now ip st)
     then Ok {| ir_code := code; ir_sessionId := sid;
                ir_expiresIn := PAIRING_CODE_EXPIRY cfg |}
     else Throw PAIRING_RATE_LIMITED)
  /\ rateLimitMap (snd (initiatePairing cfg now dn (Some ip) code sid st))
     = rateLimitMap (snd (checkRateLimit cfg now ip st)).
Proof.
  intros Hip. unfold initiatePairing. simpl.
  destruct (String.eqb_spec ip ""); [contradiction|]. simpl.
  destruct (checkRateLimit cfg now ip st) as [[|] st1]; simpl; auto.
Qed.

(** A call that opens a window. *)
Lemma initiate_opens cfg now dn ip code sid st :
  ip <> "" -> windowClosed now ip st ->
  thrown (fst (initiatePairing cfg now dn (Some ip) code sid st)) = None
  /\ rateLimitMap (snd (initiatePairing cfg now dn (Some ip) code sid st)) !! ip
     = Some {| attempts := 1; resetAt := now + 60000 |}.
Proof.
  intros Hip Hclosed.
  destruct (initiatePairing_rateLimitMap cfg now dn ip code sid st Hip) as [-> ->].
  unfold windowClosed in Hclosed. unfold checkRateLimit.
  destruct (rateLimitMap st !! ip) as [limit|]; simpl.
  - destruct (Z.ltb_spec (resetAt limit) now); [|lia]. simpl.
    now rewrite lookup_insert_eq.
  - now rewrite lookup_insert_eq.
Qed.

(** A call inside an open window: allowed, and counted, while the count is
    below the limit; refused, and not counted, from then on. *)
Lemma initiate_within cfg now dn ip code sid st limit :
  ip <> "" -> rateLimitMap st !! ip = Some limit -> now <= resetAt limit ->
  let r := initiatePairing cfg now dn (Some ip) code sid st in
  (attempts limit < PAIRING_MAX_ATTEMPTS cfg ->
     thrown (fst r) = None
     /\ rateLimitMap (snd r) !! ip
        = Some {| attempts := attempts limit + 1; resetAt := resetAt limit |})
  /\ (PAIRING_MAX_ATTEMPTS cfg <= attempts limit ->
     thrown (fst r) = Some PAIRING_RATE_LIMITED /\ snd r = st).
Proof.
  intros Hip Hl Hopen r. subst r.
  destruct (initiatePairing_rateLimitMap cfg now dn ip code sid st Hip) as [Hr Hm].
  rewrite Hr, Hm. clear Hr Hm.
  unfold initiatePairing. simpl.
  destruct (String.eqb_spec ip ""); [contradiction|]. simpl.
  unfold checkRateLimit. rewrite Hl.
  destruct (Z.ltb_spec (resetAt limit) now); [lia|].
  destruct (Z.leb_spec (PAIRING_MAX_ATTEMPTS cfg) (attempts limit)); simpl;
    split; intros; try lia; auto.
  now rewrite lookup_insert_eq.
Qed.

(** X3. For any limit: of the calls made inside an open window whose count
    stands at [attempts limit], the [i]-th (from 0) is allowed exactly when
    [attempts limit + i] is still below [PAIRING_MAX_ATTEMPTS].  Counting
    the call that opened the window, the N-th attempt is the last one
    allowed. *)
Lemma initiateAll_within cfg ip cs : forall st limit,
  ip <> "" ->
  rateLimitMap st !! ip = Some limit ->
  List.Forall (fun c => ic_now c <= resetAt limit) cs ->
  List.map thrown (fst (initiateAll cfg ip cs st))
  = List.map (fun i => if attempts limit + Z.of_nat i <? PAIRING_MAX_ATTEMPTS cfg
                       then None else Some PAIRING_RATE_LIMITED)
             (List.seq 0 (List.length cs)).
Proof.
  induction cs as [|c cs IH]; intros st limit Hip Hl Hin; simpl; [reflexivity|].
  apply List.Forall_cons_iff in Hin as [Hc Hcs].
  destruct (initiate_within cfg (ic_now c) (ic_deviceName c) ip (ic_code c)
              (ic_sessionId c) st limit Hip Hl Hc) as [Hlow Hhigh].
  destruct (initiatePairing cfg (ic_now c) _ _ _ _ st) as [r st1].
  simpl in Hlow, Hhigh.
  rewrite <- List.seq_shift, List.map_map.
  destruct (Z.ltb_spec (attempts limit + Z.of_nat 0) (PAIRING_MAX_ATTEMPTS cfg))
    as [Hlt|Hge].
  - destruct Hlow as [Hr Hm]; [lia|].
    specialize (IH st1 _ Hip Hm Hcs).
    destruct (initiateAll cfg ip cs st1) as [rs st2]. simpl in *.
    rewrite Hr, IH. f_equal. apply List.map_ext. intros i.
    replace (attempts limit + 1 + Z.of_nat i) with (attempts limit + Z.of_nat (S i))
      by lia.
    reflexivity.
  - destruct Hhigh as [Hr ->]; [lia|].
    specialize (IH st limit Hip Hl Hcs).
    destruct (initiateAll cfg ip cs st) as [rs st2]. simpl in *.
    rewrite Hr, IH. f_equal. apply List.map_ext. intros i.
    destruct (Z.ltb_spec (attempts limit + Z.of_nat i) (PAIRING_MAX_ATTEMPTS cfg));
      destruct (Z.ltb_spec (attempts limit + Z.of_nat (S i)) (PAIRING_MAX_ATTEMPTS cfg));
      try reflexivity; lia.
Qed.

(** C3. With [PAIRING_MAX_ATTEMPTS] = 3, four consecutive [initiatePairing]
    calls from one origin address, the first opening a window and the others
    made before that window's [resetAt] has passed, are allowed, allowed,
    allowed and refused with [PAIRING_RATE_LIMITED]; a fifth call made after
    [resetAt] is allowed again and leaves the address with [attempts] = 1
    in a new window. *)
Theorem rate_limit_three_per_window cfg ip st c1 c2 c3 c4 c5 :
  PAIRING_MAX_ATTEMPTS cfg = 3 ->
  ip <> "" ->
  windowClosed (ic_now c1) ip st ->
  ic_now c2 <= ic_now c1 + 60000 ->
  ic_now c3 <= ic_now c1 + 60000 ->
  ic_now c4 <= ic_now c1 + 60000 ->
  ic_now c1 + 60000 < ic_now c5 ->
  List.map thrown (fst (initiateAll cfg ip [c1; c2; c3; c4; c5] st))
  = [None; None; None; Some PAIRING_RATE_LIMITED; None]
  /\ rateLimitMap (snd (initiateAll cfg ip [c1; c2; c3; c4; c5] st)) !! ip
     = Some {| attempts := 1; resetAt := ic_now c5 + 60000 |}.
Proof.
  intros Hmax Hip Hclosed H2 H3 H4 H5. simpl.
  destruct (initiate_opens cfg (ic_now c1) (ic_deviceName c1) ip
              (ic_code c1) (ic_sessionId c1) st Hip Hclosed) as [R1 M1].
  destruct (initiatePairing cfg (ic_now c1) _ _ _ _ st) as [r1 st1].
  simpl in R1, M1.
  destruct (initiate_within cfg (ic_now c2) (ic_deviceName c2) ip
              (ic_code c2) (ic_sessionId c2) st1 _ Hip M1 H2) as [A2 _].
  simpl in A2. destruct A2 as [R2 M2]; [lia|].
  destruct (initiatePairing cfg (ic_now c2) _ _ _ _ st1) as [r2 st2].
  simpl in R2, M2.
  destruct (initiate_within cfg (ic_now c3) (ic_deviceName c3) ip
              (ic_code c3) (ic_sessionId c3) st2 _ Hip M2 H3) as [A3 _].
  simpl in A3. destruct A3 as [R3 M3]; [lia|].
  destruct (initiatePairing cfg (ic_now c3) _ _ _ _ st2) as [r3 st3].
  simpl in R3, M3.
  destruct (initiate_within cfg (ic_now c4) (ic_deviceName c4) ip
              (ic_code c4) (ic_sessionId c4) st3 _ Hip M3 H4) as [_ A4].
  simpl in A4. destruct A4 as [R4 M4]; [lia|].
  destruct (initiatePairing cfg (ic_now c4) _ _ _ _ st3) as [r4 st4].
  simpl in R4, M4. subst st4.
  assert (Hclosed5 : windowClosed (ic_now c5) ip st3).
  { unfold windowClosed. rewrite M3. simpl. lia. }
  destruct (initiate_opens cfg (ic_now c5) (ic_deviceName c5) ip
              (ic_code c5) (ic_sessionId c5) st3 Hip Hclosed5) as [R5 M5].
  destruct (initiatePairing cfg (ic_now c5) _ _ _ _ st3) as [r5 st5].
  simpl in *. rewrite R1, R2, R3, R4, R5. auto.
Qed.

(** ** [lastUsedAt] along a run *)

Lemma exec_wf cfg now op st :
  JsMap.wf (sessions st) -> JsMap.wf (sessions (exec cfg now op st)).
Proof.
  intros Hwf.
  destruct op as [dn ip code sid|code sid ip tok|tok| |sessionId|sessionId| |];
    simpl.
  - now rewrite initiatePairing_sessions.
  - destruct (completePairing_cases cfg now code sid ip tok st)
      as [(_ & ->)|[(pc & _ & _ & ->)|[(pc & _ & _ & _ & ->)|
          [(pc & _ & _ & _ & _ & ->)|
           (pc & s & _ & _ & _ & _ & _ & _ & _ & _ & _ & ->)]]]];
      simpl; auto.
    now apply JsMapFacts.wf_set.
  - destruct (validateSession_cases cfg now tok st)
      as [(_ & ->)|[(k & s & _ & _ & ->)|(k & s & _ & _ & ->)]]; simpl; auto.
    + now apply JsMapFacts.wf_delete.
    + now apply JsMapFacts.wf_set.
  - rewrite cleanupExpiredSessions_sessions. now apply JsMapFacts.wf_filter.
  - exact Hwf.
  - unfold revokeSession. destruct (JsMap.has sessionId (sessions st)); simpl; auto.
    now apply JsMapFacts.wf_delete.
  - constructor.
  - unfold cleanupTick. simpl. rewrite cleanupExpiredSessions_sessions. simpl.
    now apply JsMapFacts.wf_filter.
Qed.

Lemma run_wf cfg tr : forall st,
  JsMap.wf (sessions st) -> JsMap.wf (sessions (run cfg tr st)).
Proof.
  induction tr as [|[now op] tr IH]; simpl; intros st Hwf; auto.
  apply IH. now apply exec_wf.
Qed.





(** ** Single use and expiry of a pairing code *)

(** When the code is supplied in its stored (upper-case) form, a successful
    completion removes it, and a later completion under any spelling of the
    same code throws [PAIRING_CODE_INVALID]. *)
Lemma completePairing_consumes_exact cfg now code sid ip tok st s st' :
  toUpperCase code = code ->
  completePairing cfg now code sid ip tok st = (Ok s, st') ->
  pairingCodes st' !! code = None
  /\ forall now' code' sid' ip' tok',
       toUpperCase code' = code ->
       completePairing cfg now' code' sid' ip' tok' st'
       = (Throw PAIRING_CODE_INVALID, st').
Proof.
  intros Hup Hc.
  destruct (completePairing_cases cfg now code sid ip tok st)
    as [(_ & E)|[(pc & _ & _ & E)|[(pc & _ & _ & _ & E)|
        [(pc & _ & _ & _ & _ & E)|
         (pc & s1 & _ & _ & _ & _ & _ & _ & _ & _ & _ & E)]]]];
    rewrite Hc in E; try discriminate.
  injection E as -> ->. simpl.
  assert (Hgone : delete code (pairingCodes st) !! code = None)
    by apply lookup_delete_eq.
  split; [exact Hgone|].
  intros now' code' sid' ip' tok' Hup'.
  unfold completePairing. simpl. rewrite Hup', Hgone. reflexivity.
Qed.

(** When the code is supplied in another spelling, the entry outlives the
    successful completion, and no later completion with that code and
    correlation id throws [PAIRING_CODE_INVALID]. *)
Lemma completePairing_keeps_other_spelling cfg now code sid ip tok st s st' :
  toUpperCase code <> code ->
  completePairing cfg now code sid ip tok st = (Ok s, st') ->
  pairingCodes st' !! toUpperCase code = pairingCodes st !! toUpperCase code
  /\ forall now' ip' tok',
       fst (completePairing cfg now' code sid ip' tok' st')
       <> Throw PAIRING_CODE_INVALID.
Proof.
  intros Hup Hc.
  destruct (completePairing_cases cfg now code sid ip tok st)
    as [(_ & E)|[(pc & _ & _ & E)|[(pc & _ & _ & _ & E)|
        [(pc & _ & _ & _ & _ & E)|
         (pc & s1 & Hpc & Hsid & _ & _ & _ & _ & _ & _ & _ & E)]]]];
    rewrite Hc in E; try discriminate.
  injection E as -> ->. simpl.
  assert (Hkept : delete code (pairingCodes st) !! toUpperCase code = Some pc).
  { rewrite lookup_delete_ne by congruence. exact Hpc. }
  split; [congruence|].
  intros now' ip' tok'. unfold completePairing. simpl. rewrite Hkept.
  destruct (String.eqb_spec (pc_sessionId pc) sid); [|contradiction]. simpl.
  destruct (pc_expiresAt pc <? now'); simpl; [discriminate|].
  destruct (SESSION_MAX_PER_USER cfg <=? _); simpl; discriminate.
Qed.

(** The expiry check: after [expiresAt] the call throws
    [PAIRING_CODE_EXPIRED] and deletes the key [code] as supplied; up to
    [expiresAt] it does not throw [PAIRING_CODE_EXPIRED]. *)
Lemma completePairing_expiry cfg now code sid ip tok st pc :
  pairingCodes st !! toUpperCase code = Some pc ->
  pc_sessionId pc = sid ->
  (pc_expiresAt pc < now ->
     completePairing cfg now code sid ip tok st
     = (Throw PAIRING_CODE_EXPIRED,
        withPairingCodes st (delete code (pairingCodes st))))
  /\ (now <= pc_expiresAt pc ->
     fst (completePairing cfg now code sid ip tok st)
     <> Throw PAIRING_CODE_EXPIRED).
Proof.
  intros Hpc Hsid. unfold completePairing. rewrite Hpc, Hsid, String.eqb_refl.
  simpl. destruct (Z.ltb_spec (pc_expiresAt pc) now); split; intros; try lia; auto.
  destruct (SESSION_MAX_PER_USER cfg <=? _); simpl; discriminate.
Qed.

(** C1 (the code departs from the claim). A pairing code completed in lower
    case is not consumed: the first [completePairing] succeeds, the entry
    [A7K9M2] is still in the registry, and a second call with the same code
    succeeds again instead of throwing [PAIRING_CODE_INVALID], issuing a
    second token. With the code spelled as generated the second call does
    throw [PAIRING_CODE_INVALID]. *)
Theorem lowercase_code_not_consumed :
  thrown (fst Scenario.first_lower) = None
  /\ is_Some (pairingCodes (snd Scenario.first_lower) !! "A7K9M2")
  /\ thrown (fst Scenario.second_lower) = None
  /\ token <$> JsMap.get "s1" (sessions (snd Scenario.second_lower)) = Some "tok2"
  /\ fst (completePairing defaultConfig 3000 "a7k9m2" "s1" None "tok2"
            (snd Scenario.first_exact))
     = Throw PAIRING_CODE_INVALID.
Proof.
  repeat split; try (vm_compute; reflexivity).
  vm_compute. eexists. reflexivity.
Qed.

(** C2 (the code departs from the claim). An expired pairing code that is
    completed in lower case is reported with [PAIRING_CODE_EXPIRED] but is
    not deleted: the entry [A7K9M2] is still in the registry afterwards.
    With the code spelled as generated the entry is deleted. *)
Theorem lowercase_expired_code_not_deleted :
  fst Scenario.late_lower = Throw PAIRING_CODE_EXPIRED
  /\ pairingCodes (snd Scenario.late_lower) !! "A7K9M2"
     = pairingCodes Scenario.pending !! "A7K9M2"
  /\ is_Some (pairingCodes (snd Scenario.late_lower) !! "A7K9M2")
  /\ pairingCodes
       (snd (completePairing defaultConfig 301001 "A7K9M2" "s1" None "tok1"
               Scenario.pending)) !! "A7K9M2" = None.
Proof.
  repeat split; try (vm_compute; reflexivity).
  vm_compute. eexists. reflexivity.
Qed.

(** ** The theorems at work on the scenarios *)

Lemma rate_limit_three_per_window_witness :
  let calls := [ Scenario.call 0 "A7K9M2" "s1"; Scenario.call 10000 "B8L2N3" "s2";
                 Scenario.call 20000 "C9M3P4" "s3"; Scenario.call 30000 "D2Q4R5" "s4";
                 Scenario.call 60001 "E3R5S6" "s5" ] in
  List.map thrown (fst (initiateAll defaultConfig "10.0.0.7" calls initialState))
  = [None; None; None; Some PAIRING_RATE_LIMITED; None]
  /\ rateLimitMap (snd (initiateAll defaultConfig "10.0.0.7" calls initialState))
       !! "10.0.0.7"
     = Some {| attempts := 1; resetAt := 120001 |}.
Proof.
  apply (rate_limit_three_per_window defaultConfig "10.0.0.7" initialState
           (Scenario.call 0 "A7K9M2" "s1") (Scenario.call 10000 "B8L2N3" "s2")
           (Scenario.call 20000 "C9M3P4" "s3") (Scenario.call 30000 "D2Q4R5" "s4")
           (Scenario.call 60001 "E3R5S6" "s5")).
  - reflexivity.
  - discriminate.
  - vm_compute. exact I.
  - simpl. lia.
  - simpl. lia.
  - simpl. lia.
  - simpl. lia.
Defined.

Lemma session_count_bounded_witness :
  JsMap.size (sessions Scenario.twoPaired) <= SESSION_MAX_PER_USER Scenario.cfgTwo
  /\ completePairing Scenario.cfgTwo 6000 "c9m3p4" "s3" (Some "10.0.0.9") "tok3"
                     Scenario.twoPaired
     = (Throw SESSION_LIMIT_REACHED, Scenario.twoPaired)
  /\ List.length (sessions Scenario.twoPaired) = 2%nat.
Proof.
  assert (Hinv : JsMap.size (sessions Scenario.twoPaired)
                 <= SESSION_MAX_PER_USER Scenario.cfgTwo)
    by (vm_compute; discriminate).
  split; [exact Hinv|]. split; [|reflexivity].
  destruct (session_count_bounded Scenario.cfgTwo Scenario.twoPaired Hinv)
    as [_ Hfull].
  destruct (Hfull eq_refl 6000 "c9m3p4" "s3" (Some "10.0.0.9") "tok3")
    as (e & st' & Hc & _ & Hlimit).
  destruct Hlimit as [-> ->]; [|exact Hc].
  eexists. split; [vm_compute; reflexivity|]. split; [reflexivity|].
  vm_compute. discriminate.
Defined.

Lemma validate_touches_lastUsedAt_witness :
  Scenario.validated
  = (Some Scenario.touched, snd Scenario.validated)
  /\ exists s, JsMap.get "s1" (sessions Scenario.onePaired) = Some s
               /\ lastUsedAt s = 2000
               /\ Scenario.touched = setLastUsedAt s 5000.
Proof.
  assert (Hv : validateSession defaultConfig 5000 "tok1" Scenario.onePaired
               = (Some Scenario.touched, snd Scenario.validated))
    by (vm_compute; reflexivity).
  split; [exact Hv|].
  destruct (validate_touches_lastUsedAt _ _ _ _ _ _ Hv)
    as (k & s & Hf & _ & _ & _ & _ & _ & _ & _ & _ & _ & Hoff & _).
  destruct (Hoff eq_refl) as (Hs & _ & _).
  exists s. split; [|split; [|exact Hs]].
  - vm_compute in Hf. injection Hf as <- <-. vm_compute. reflexivity.
  - vm_compute in Hf. injection Hf as <- <-. reflexivity.
Defined.


Lemma session_id_is_correlation_id_witness :
  Scenario.first_lower
  = (Ok Scenario.phoneSession, snd Scenario.first_lower)
  /\ getSession "s1" (snd Scenario.first_lower) = Some Scenario.phoneSession.
Proof.
  assert (Hi : initiatePairing defaultConfig 1000 (Some "phone") None
                               "A7K9M2" "s1" initialState
               = (Ok Scenario.phoneInitiated, Scenario.pending))
    by (vm_compute; reflexivity).
  assert (Hc : completePairing defaultConfig 2000 "a7k9m2" "s1" None "tok1"
                               Scenario.pending
               = (Ok Scenario.phoneSession, snd Scenario.first_lower))
    by (vm_compute; reflexivity).
  split; [exact Hc|].
  exact (proj1 (proj2 (session_id_is_correlation_id
           defaultConfig 1000 (Some "phone") None "A7K9M2" "s1" initialState
           Scenario.phoneInitiated Scenario.pending
           2000 "a7k9m2" "s1" None "tok1" Scenario.pending
           Scenario.phoneSession (snd Scenario.first_lower)
           Hi eq_refl eq_refl Hc))).
Defined.

Lemma capacity_counts_expired_witness :
  completePairing Scenario.cfgTwo 2600001000 "d2q4r5" "s4" None "tok4"
                  Scenario.twoExpired
  = (Throw SESSION_LIMIT_REACHED, Scenario.twoExpired)
  /\ fst (getSessions 2600001000 Scenario.twoExpired) = [].
Proof.
  apply (capacity_counts_expired Scenario.cfgTwo 2600001000 "d2q4r5" "s4" None
           "tok4" Scenario.twoExpired Scenario.watchCode).
  - vm_compute. reflexivity.
  - intros k s Hin. vm_compute in Hin.
    destruct Hin as [[= <- <-]|[[= <- <-]|[]]]; vm_compute; reflexivity.
  - vm_compute. reflexivity.
  - reflexivity.
  - vm_compute. discriminate.
Defined.

(** The end-to-end example of the specification: the code typed in lower
    case is accepted, the session carries the device name given at
    initiation, and validating its token returns the session with the same
    [id]. *)
Example end_to_end :
  (id <$> thrownOrSession (fst Scenario.first_lower)) = Some "s1"
  /\ (deviceName <$> thrownOrSession (fst Scenario.first_lower)) = Some "phone"
  /\ (id <$> fst (validateSession defaultConfig 5000 "tok1"
                    (snd Scenario.first_lower))) = Some "s1".
Proof. repeat split; vm_compute; reflexivity. Qed.


(** Absent tokens on the paired phone: a token never issued, the token
    after its session was revoked, and the token one millisecond after its
    session expired (the session is then gone from the listing). *)
Example validate_absent :
  fst (validateSession defaultConfig 5000 "nope" Scenario.onePaired) = None
  /\ fst (validateSession defaultConfig 5000 "tok1"
            (snd (revokeSession "s1" Scenario.onePaired))) = None
  /\ fst (validateSession defaultConfig 2592002001 "tok1" Scenario.onePaired) = None
  /\ fst (getSessions 2592002001
            (snd (validateSession defaultConfig 2592002001 "tok1"
                    Scenario.onePaired))) = [].
Proof. repeat split; vm_compute; reflexivity. Qed.

(** Sliding expiry: two validations 60 seconds apart move [expiresAt] by
    60000 milliseconds. *)
Example sliding_two_validates :
  let v1 := validateSession Scenario.cfgSliding 5000 "tok1" Scenario.onePaired in
  let v2 := validateSession Scenario.cfgSliding 65000 "tok1" (snd v1) in
  (expiresAt <$> fst v1) = Some 2592005000
  /\ (expiresAt <$> fst v2) = Some 2592065000.
Proof. split; vm_compute; reflexivity. Qed.


(** * Further properties of the service, its guard and its routes *)

(** ** Generated pairing codes *)

Lemma length_append (a b : string) :
  String.length (String.append a b) = (String.length a + String.length b)%nat.
Proof. induction a as [|c a IH]; simpl; [reflexivity|]. now rewrite IH. Qed.

Lemma toUpperCase_append (a b : string) :
  toUpperCase (String.append a b)
  = String.append (toUpperCase a) (toUpperCase b).
Proof. induction a as [|c a IH]; simpl; [reflexivity|]. now rewrite IH. Qed.

Lemma list_ascii_append (a b : string) :
  list_ascii_of_string (String.append a b)
  = (list_ascii_of_string a ++ list_ascii_of_string b)%list.
Proof. induction a as [|c a IH]; simpl; [reflexivity|]. now rewrite IH. Qed.

(** An in-range draw selects one character of the alphabet, and that
    character is its own upper case. *)
Lemma charsAt_in_range k :
  (k < 32)%nat ->
  exists c, charsAt k = String c EmptyString
            /\ List.In c (list_ascii_of_string chars)
            /\ upper_ascii c = c.
Proof.
  intros Hk.
  do 32 (destruct k as [|k];
         [eexists; split; [reflexivity|];
          split; [simpl; repeat (first [left; reflexivity | right])
                 |reflexivity]|]).
  lia.
Qed.

Lemma chars_unambiguous c :
  List.In c (list_ascii_of_string chars) ->
  ~ List.In c ["0"; "O"; "1"; "I"]%char.
Proof.
  intros Hin Hbad.
  assert (Hall : List.forallb
                   (fun x => negb (List.existsb (Ascii.eqb x)
                                     ["0"; "O"; "1"; "I"]%char))
                   (list_ascii_of_string chars) = true) by reflexivity.
  rewrite List.forallb_forall in Hall. specialize (Hall c Hin).
  apply Bool.negb_true_iff in Hall.
  assert (Hex : List.existsb (Ascii.eqb c) ["0"; "O"; "1"; "I"]%char = true).
  { apply List.existsb_exists. exists c. split; [exact Hbad|apply Ascii.eqb_refl]. }
  congruence.
Qed.

(** The loop, from any code built so far. *)
Lemma generate_loop draws : forall acc,
  List.Forall (fun k => (k < 32)%nat) draws ->
  let code := List.fold_left (fun code k => String.append code (charsAt k))
                             draws acc in
  String.length code = (String.length acc + List.length draws)%nat
  /\ (forall c, List.In c (list_ascii_of_string code) ->
                List.In c (list_ascii_of_string acc)
                \/ List.In c (list_ascii_of_string chars))
  /\ (toUpperCase acc = acc -> toUpperCase code = code).
Proof.
  induction draws as [|k draws IH]; intros acc Hall; simpl.
  - split; [lia|]. split; auto.
  - apply List.Forall_cons_iff in Hall as [Hk Hall].
    destruct (charsAt_in_range k Hk) as (c & Hc & Hin & Hup).
    destruct (IH (String.append acc (charsAt k)) Hall) as (Hlen & Hmem & Hupper).
    rewrite Hc in *. split; [|split].
    + rewrite Hlen, length_append. simpl. lia.
    + intros x Hx. destruct (Hmem x Hx) as [Hacc|Halpha]; [|now right].
      rewrite list_ascii_append in Hacc. apply List.in_app_iff in Hacc.
      destruct Hacc as [Hacc|[<-|[]]]; auto.
    + intros Hacc. apply Hupper. rewrite toUpperCase_append, Hacc. simpl.
      now rewrite Hup.
Qed.

Lemma generatePairingCode_upper draws :
  List.Forall (fun k => (k < 32)%nat) draws ->
  toUpperCase (generatePairingCode draws) = generatePairingCode draws.
Proof.
  intros Hall. destruct (generate_loop draws "" Hall) as (_ & _ & Hup).
  now apply Hup.
Qed.

(** X1. A generated pairing code has one character per iteration of the
    loop, every character comes from the alphabet [chars], none of them is
    one of the look-alikes 0, O, 1, I, and the code is its own upper case. *)
Theorem generatePairingCode_alphabet draws :
  List.Forall (fun k => (k < 32)%nat) draws ->
  String.length (generatePairingCode draws) = List.length draws
  /\ (forall c, List.In c (list_ascii_of_string (generatePairingCode draws)) ->
                List.In c (list_ascii_of_string chars)
                /\ ~ List.In c ["0"; "O"; "1"; "I"]%char)
  /\ toUpperCase (generatePairingCode draws) = generatePairingCode draws.
Proof.
  intros Hall. destruct (generate_loop draws "" Hall) as (Hlen & Hmem & Hup).
  split; [exact Hlen|]. split; [|now apply Hup].
  intros c Hc. destruct (Hmem c Hc) as [[]|Hin].
  split; [exact Hin|now apply chars_unambiguous].
Qed.

Lemma generatePairingCode_alphabet_witness :
  generatePairingCode [0; 29; 9; 31; 11; 24]%nat = "A7K9M2"
  /\ String.length (generatePairingCode [0; 29; 9; 31; 11; 24]%nat) = 6%nat
  /\ toUpperCase (generatePairingCode [0; 29; 9; 31; 11; 24]%nat)
     = generatePairingCode [0; 29; 9; 31; 11; 24]%nat.
Proof.
  split; [reflexivity|].
  assert (Hall : List.Forall (fun k => (k < 32)%nat) [0; 29; 9; 31; 11; 24]%nat)
    by (repeat constructor; lia).
  destruct (generatePairingCode_alphabet _ Hall) as (Hlen & _ & Hup).
  split; [exact Hlen|exact Hup].
Defined.

(** X2. A pairing made with a generated code is single-use when the code is
    typed as generated: once [completePairing] has succeeded with it, the
    entry is gone and every later call under any spelling of that code
    throws [PAIRING_CODE_INVALID]. *)
Theorem generated_code_single_use
    cfg draws t0 dn ip0 sid st0 r st1 now ip tok s st2 :
  List.Forall (fun k => (k < 32)%nat) draws ->
  initiatePairing cfg t0 dn ip0 (generatePairingCode draws) sid st0 = (Ok r, st1) ->
  completePairing cfg now (ir_code r) sid ip tok st1 = (Ok s, st2) ->
  pairingCodes st2 !! ir_code r = None
  /\ forall now' code' sid' ip' tok',
       toUpperCase code' = ir_code r ->
       completePairing cfg now' code' sid' ip' tok' st2
       = (Throw PAIRING_CODE_INVALID, st2).
Proof.
  intros Hall Hinit Hc.
  apply initiatePairing_stores in Hinit as (Hcode & _).
  apply (completePairing_consumes_exact cfg now (ir_code r) sid ip tok st1 s st2);
    [|exact Hc].
  rewrite Hcode. now apply generatePairingCode_upper.
Qed.

Lemma generated_code_single_use_witness :
  completePairing defaultConfig 3000 "a7k9m2" "s1" None "tok2"
                  (snd Scenario.first_exact)
  = (Throw PAIRING_CODE_INVALID, snd Scenario.first_exact).
Proof.
  assert (Hall : List.Forall (fun k => (k < 32)%nat) [0; 29; 9; 31; 11; 24]%nat)
    by (repeat constructor; lia).
  assert (Hi : initiatePairing defaultConfig 1000 (Some "phone") None
                 (generatePairingCode [0; 29; 9; 31; 11; 24]%nat) "s1" initialState
               = (Ok Scenario.phoneInitiated, Scenario.pending))
    by (vm_compute; reflexivity).
  assert (Hc : completePairing defaultConfig 2000
                 (ir_code Scenario.phoneInitiated) "s1" None "tok1" Scenario.pending
               = (Ok Scenario.phoneSession, snd Scenario.first_exact))
    by (vm_compute; reflexivity).
  exact (proj2 (generated_code_single_use _ _ _ _ _ _ _ _ _ _ _ _ _ _
                  Hall Hi Hc) 3000 "a7k9m2" "s1" None "tok2" eq_refl).
Defined.

(** ** More on the rate limiter *)

Lemma initiateAll_within_witness :
  let st := snd (initiatePairing defaultConfig 0 (Some "phone") (Some "10.0.0.7")
                                 "A7K9M2" "s1" initialState) in
  List.map thrown
    (fst (initiateAll defaultConfig "10.0.0.7"
            [ Scenario.call 10000 "B8L2N3" "s2"; Scenario.call 20000 "C9M3P4" "s3";
              Scenario.call 30000 "D2Q4R5" "s4"; Scenario.call 60000 "E3R5S6" "s5" ]
            st))
  = [None; None; Some PAIRING_RATE_LIMITED; Some PAIRING_RATE_LIMITED].
Proof.
  intros st.
  apply (initiateAll_within defaultConfig "10.0.0.7"
           [ Scenario.call 10000 "B8L2N3" "s2"; Scenario.call 20000 "C9M3P4" "s3";
             Scenario.call 30000 "D2Q4R5" "s4"; Scenario.call 60000 "E3R5S6" "s5" ]
           st {| attempts := 1; resetAt := 60000 |}).
  - discriminate.
  - vm_compute. reflexivity.
  - repeat constructor; simpl; lia.
Defined.

(** X4. The limiter is keyed on a non-empty address only: a call without an
    origin address is never refused and leaves the windows alone, and so is
    any number of calls whose address is the empty string. *)
Theorem initiate_without_address_unlimited cfg st :
  (forall now dn code sid,
     thrown (fst (initiatePairing cfg now dn None code sid st)) = None
     /\ rateLimitMap (snd (initiatePairing cfg now dn None code sid st))
        = rateLimitMap st)
  /\ (forall calls,
        List.map thrown (fst (initiateAll cfg "" calls st))
        = List.repeat None (List.length calls)
        /\ rateLimitMap (snd (initiateAll cfg "" calls st)) = rateLimitMap st).
Proof.
  split; [intros; split; reflexivity|].
  intros calls. revert st.
  induction calls as [|c calls IH]; intros st; simpl; [split; reflexivity|].
  destruct (initiatePairing cfg (ic_now c) (ic_deviceName c) (Some "")
              (ic_code c) (ic_sessionId c) st) as [r st1] eqn:Hcall.
  unfold initiatePairing in Hcall. simpl in Hcall. injection Hcall as <- <-.
  specialize (IH (withPairingCodes st
                    (<[ic_code c :=
                         {| pc_code := ic_code c; pc_sessionId := ic_sessionId c;
                            pc_createdAt := ic_now c;
                            pc_expiresAt := ic_now c + PAIRING_CODE_EXPIRY cfg * 1000;
                            pc_deviceName := ic_deviceName c;
                            pc_ipAddress := Some "" |}]> (pairingCodes st)))).
  destruct (initiateAll cfg "" calls _) as [rs st2]. simpl in *.
  destruct IH as [-> ->]. split; reflexivity.
Qed.

(** X5. One check concerns one address and one fixed window: the windows of
    the other addresses are left as they are, a refusal changes nothing at
    all, and a check inside an open window never moves its [resetAt] (it
    adds at most one to [attempts]). *)
Theorem checkRateLimit_window cfg now ip st :
  (forall ip', ip' <> ip ->
     rateLimitMap (snd (checkRateLimit cfg now ip st)) !! ip'
     = rateLimitMap st !! ip')
  /\ (fst (checkRateLimit cfg now ip st) = false ->
      snd (checkRateLimit cfg now ip st) = st)
  /\ (forall limit,
        rateLimitMap st !! ip = Some limit -> now <= resetAt limit ->
        exists limit',
          rateLimitMap (snd (checkRateLimit cfg now ip st)) !! ip = Some limit'
          /\ resetAt limit' = resetAt limit
          /\ attempts limit <= attempts limit' <= attempts limit + 1
          /\ (fst (checkRateLimit cfg now ip st) = true
              <-> attempts limit < PAIRING_MAX_ATTEMPTS cfg)).
Proof.
  unfold checkRateLimit. split; [|split].
  - intros ip' Hne.
    destruct (rateLimitMap st !! ip) as [limit|]; simpl.
    + destruct (resetAt limit <? now); simpl;
        [now rewrite lookup_insert_ne|].
      destruct (PAIRING_MAX_ATTEMPTS cfg <=? attempts limit); simpl;
        [reflexivity|now rewrite lookup_insert_ne].
    + now rewrite lookup_insert_ne.
  - destruct (rateLimitMap st !! ip) as [limit|]; simpl; [|discriminate].
    destruct (resetAt limit <? now); simpl; [discriminate|].
    destruct (PAIRING_MAX_ATTEMPTS cfg <=? attempts limit); simpl;
      [reflexivity|discriminate].
  - intros limit Hl Hopen. rewrite Hl.
    destruct (Z.ltb_spec (resetAt limit) now); [lia|].
    destruct (Z.leb_spec (PAIRING_MAX_ATTEMPTS cfg) (attempts limit)); simpl.
    + exists limit. rewrite Hl. repeat split; try lia; discriminate.
    + eexists. rewrite lookup_insert_eq. split; [reflexivity|]. simpl.
      repeat split; try lia.
Qed.

(** ** The sweeps *)

Lemma cleanupTick_stores now st :
  pairingCodes (cleanupTick now st)
  = filter (fun kv : string * PairingCode => ¬ (pc_expiresAt (snd kv) < now))
           (pairingCodes st)
  /\ sessions (cleanupTick now st)
     = List.filter (fun kv => negb (sessionExpired now (snd kv))) (sessions st)
  /\ rateLimitMap (cleanupTick now st)
     = filter (fun kv : string * RateLimit => ¬ (resetAt (snd kv) < now))
              (rateLimitMap st).
Proof.
  unfold cleanupTick, cleanupRateLimits, cleanupExpiredSessions,
    cleanupExpiredCodes. simpl.
  destruct (0 <? _)%nat; simpl; auto.
Qed.

(** X6. A cleanup tick removes exactly what has expired: a pairing code, a
    session or a rate-limit window is in its store after the tick if and only
    if it was there before and its [expiresAt] (for a window, its [resetAt])
    is not before the time of the tick. *)
Theorem cleanupTick_exact now st :
  (forall k pc,
     pairingCodes (cleanupTick now st) !! k = Some pc
     <-> pairingCodes st !! k = Some pc /\ now <= pc_expiresAt pc)
  /\ (forall k s,
        List.In (k, s) (sessions (cleanupTick now st))
        <-> List.In (k, s) (sessions st) /\ now <= expiresAt s)
  /\ (forall ip limit,
        rateLimitMap (cleanupTick now st) !! ip = Some limit
        <-> rateLimitMap st !! ip = Some limit /\ now <= resetAt limit).
Proof.
  destruct (cleanupTick_stores now st) as (-> & -> & ->).
  split; [|split].
  - intros k pc. rewrite map_lookup_filter_Some. simpl. intuition lia.
  - intros k s. rewrite List.filter_In. unfold sessionExpired. simpl.
    destruct (Z.ltb_spec (expiresAt s) now); simpl; intuition (try lia; try discriminate).
  - intros ip limit. rewrite map_lookup_filter_Some. simpl. intuition lia.
Qed.

(** X7. What a late completion is told depends on the sweep: for a stored
    code whose [expiresAt] has passed, [completePairing] throws
    [PAIRING_CODE_EXPIRED] as long as no tick has run, and
    [PAIRING_CODE_INVALID], changing nothing, once a tick has removed it. *)
Theorem swept_code_is_invalid cfg t now code sid ip tok st pc :
  pairingCodes st !! toUpperCase code = Some pc ->
  pc_sessionId pc = sid ->
  pc_expiresAt pc < t -> t <= now ->
  fst (completePairing cfg now code sid ip tok st) = Throw PAIRING_CODE_EXPIRED
  /\ completePairing cfg now code sid ip tok (cleanupTick t st)
     = (Throw PAIRING_CODE_INVALID, cleanupTick t st).
Proof.
  intros Hpc Hsid Hexp Hnow. split.
  - unfold completePairing. rewrite Hpc, Hsid, String.eqb_refl. simpl.
    destruct (Z.ltb_spec (pc_expiresAt pc) now); [reflexivity|lia].
  - assert (Hgone : pairingCodes (cleanupTick t st) !! toUpperCase code = None).
    { destruct (cleanupTick_stores t st) as (-> & _ & _).
      apply map_lookup_filter_None. right. intros pc' Hpc'. simpl.
      assert (pc' = pc) by congruence. subst. lia. }
    unfold completePairing. now rewrite Hgone.
Qed.

Lemma swept_code_is_invalid_witness :
  fst Scenario.late_lower = Throw PAIRING_CODE_EXPIRED
  /\ completePairing defaultConfig 301001 "a7k9m2" "s1" None "tok1"
                     (cleanupTick 301001 Scenario.pending)
     = (Throw PAIRING_CODE_INVALID, cleanupTick 301001 Scenario.pending).
Proof.
  apply (swept_code_is_invalid defaultConfig 301001 301001 "a7k9m2" "s1" None
           "tok1" Scenario.pending
           {| pc_code := "A7K9M2"; pc_sessionId := "s1"; pc_createdAt := 1000;
              pc_expiresAt := 301000; pc_deviceName := Some "phone";
              pc_ipAddress := None |}).
  - vm_compute. reflexivity.
  - reflexivity.
  - simpl. lia.
  - lia.
Defined.

(** ** Listing *)

Lemma filter_idem {A} (f : A -> bool) (l : list A) :
  List.filter f (List.filter f l) = List.filter f l.
Proof.
  induction l as [|a l IH]; simpl; [reflexivity|].
  destruct (f a) eqn:E; simpl; [rewrite E|]; now rewrite ?IH.
Qed.

Lemma cleanupExpiredSessions_fixed now st :
  List.filter (fun kv => negb (sessionExpired now (snd kv))) (sessions st)
  = sessions st ->
  cleanupExpiredSessions now st = st.
Proof.
  intros Hfix. unfold cleanupExpiredSessions. rewrite Hfix, Nat.sub_diag. simpl.
  destruct st; reflexivity.
Qed.

(** X8. [getSessions] returns only sessions that have not expired, and a
    second call at the same time returns the same list and leaves the state
    as the first call left it. *)
Theorem getSessions_idempotent now st :
  List.Forall (fun s => now <= expiresAt s) (fst (getSessions now st))
  /\ getSessions now (snd (getSessions now st))
     = (fst (getSessions now st), snd (getSessions now st)).
Proof.
  split.
  - unfold getSessions. simpl. rewrite cleanupExpiredSessions_sessions.
    apply List.Forall_forall. intros s Hin. unfold JsMap.values in Hin.
    apply List.in_map_iff in Hin as [[k s0] [Heq Hin]]. simpl in Heq. subst s0.
    apply List.filter_In in Hin as [_ Hlive]. unfold sessionExpired in Hlive.
    simpl in Hlive. destruct (Z.ltb_spec (expiresAt s) now); [discriminate|lia].
  - unfold getSessions. simpl.
    rewrite (cleanupExpiredSessions_fixed now (cleanupExpiredSessions now st));
      [reflexivity|].
    rewrite cleanupExpiredSessions_sessions. apply filter_idem.
Qed.

(** ** Persistence *)







(** ** Start-up *)

Lemma set_fresh {V} k (v : V) (m : JsMap.t V) :
  ~ List.In k (JsMap.keys m) -> JsMap.set k v m = (m ++ [(k, v)])%list.
Proof.
  unfold JsMap.keys. induction m as [|[k0 v0] m IH]; simpl; [reflexivity|].
  intros Hni. destruct (String.eqb_spec k k0) as [->|Hne]; [tauto|].
  f_equal. apply IH. tauto.
Qed.

Lemma loadSessions_from l : forall acc,
  List.NoDup (JsMap.keys acc ++ JsMap.keys l) -> keyed l ->
  List.fold_left (fun m s => JsMap.set (id s) s m) (JsMap.values l) acc
  = (acc ++ l)%list.
Proof.
  unfold JsMap.keys, JsMap.values.
  induction l as [|[k s] l IH]; intros acc Hnd Hkeyed; simpl.
  - now rewrite List.app_nil_r.
  - assert (Hid : id s = k) by (apply (Hkeyed k s); now left).
    rewrite Hid.
    assert (Hfresh : ~ List.In k (JsMap.keys acc)).
    { unfold JsMap.keys. simpl in Hnd. apply List.NoDup_remove_2 in Hnd.
      intros Hin. apply Hnd. apply List.in_app_iff. now left. }
    rewrite (set_fresh k s acc Hfresh).
    rewrite IH.
    + now rewrite <- List.app_assoc.
    + rewrite List.map_app. simpl. rewrite <- List.app_assoc. exact Hnd.
    + intros k' s' Hin. apply Hkeyed. now right.
Qed.

(** X10. Restarting the service brings back the sessions that were
    persisted: when every session is stored under its own [id], ids are
    distinct and [sessions.json] is up to date, [initializeStorage] on that
    file rebuilds the sessions that have not expired, in the same order, and
    starts with no pairing code and no rate-limit window.  Without a
    readable file it starts with no session. *)
Theorem restart_reloads_live now st :
  JsMap.wf (sessions st) -> keyed (sessions st) -> inSync st ->
  sessions (initializeStorage now (Some (sessionsFile st)))
  = List.filter (fun kv => negb (sessionExpired now (snd kv))) (sessions st)
  /\ pairingCodes (initializeStorage now (Some (sessionsFile st))) = ∅
  /\ rateLimitMap (initializeStorage now (Some (sessionsFile st))) = ∅
  /\ sessions (initializeStorage now None) = [].
Proof.
  intros Hwf Hkeyed Hsync. unfold initializeStorage.
  rewrite cleanupExpiredSessions_sessions. simpl.
  unfold loadSessions. rewrite Hsync.
  rewrite (loadSessions_from (sessions st) []); [|exact Hwf|exact Hkeyed].
  simpl. split; [reflexivity|].
  unfold cleanupExpiredSessions. simpl.
  split; [destruct (0 <? _)%nat; reflexivity|].
  split; [destruct (0 <? _)%nat; reflexivity|reflexivity].
Qed.

Lemma restart_reloads_live_witness :
  sessions (initializeStorage 5000 (Some (sessionsFile Scenario.twoPaired)))
  = sessions Scenario.twoPaired
  /\ sessions (initializeStorage 2592002001
                 (Some (sessionsFile Scenario.twoPaired)))
     = [("s2", {| id := "s2"; token := "tok2"; deviceName := "tablet";
                  createdAt := 4000; lastUsedAt := 4000;
                  expiresAt := 2592004000;
                  ipAddress := Some "10.0.0.8"; userAgent := None |})].
Proof.
  assert (Hwf : JsMap.wf (sessions Scenario.twoPaired)).
  { vm_compute. constructor; [simpl; intuition discriminate|].
    constructor; [simpl; tauto|constructor]. }
  assert (Hkeyed : keyed (sessions Scenario.twoPaired)).
  { intros k s Hin. vm_compute in Hin.
    destruct Hin as [[= <- <-]|[[= <- <-]|[]]]; reflexivity. }
  assert (Hsync : inSync Scenario.twoPaired) by reflexivity.
  split.
  - rewrite (proj1 (restart_reloads_live 5000 _ Hwf Hkeyed Hsync)).
    vm_compute. reflexivity.
  - rewrite (proj1 (restart_reloads_live 2592002001 _ Hwf Hkeyed Hsync)).
    vm_compute. reflexivity.
Defined.

(** ** Keys and ids *)

Lemma In_set {V} k (v : V) (m : JsMap.t V) k' v' :
  List.In (k', v') (JsMap.set k v m) -> (k', v') = (k, v) \/ List.In (k', v') m.
Proof.
  induction m as [|[k0 v0] m IH]; simpl.
  - intros [H|[]]. now left.
  - destruct (String.eqb_spec k k0) as [->|Hne]; simpl.
    + intros [H|H]; auto.
    + intros [H|H]; auto. destruct (IH H); auto.
Qed.

Lemma keyed_set k s m : keyed m -> id s = k -> keyed (JsMap.set k s m).
Proof.
  intros Hk Hid k' s' Hin. apply In_set in Hin as [[= -> ->]|Hin]; auto.
Qed.

Lemma keyed_filter (f : string * Session -> bool) m :
  keyed m -> keyed (List.filter f m).
Proof.
  intros Hk k s Hin. apply List.filter_In in Hin as [Hin _]. auto.
Qed.

Lemma exec_keyed cfg now op st :
  keyed (sessions st) -> keyed (sessions (exec cfg now op st)).
Proof.
  intros Hk.
  destruct op as [dn ip code sid|code sid ip tok|tok| |sessionId|sessionId| |];
    simpl.
  - now rewrite initiatePairing_sessions.
  - destruct (completePairing_cases cfg now code sid ip tok st)
      as [(_ & ->)|[(pc & _ & _ & ->)|[(pc & _ & _ & _ & ->)|
          [(pc & _ & _ & _ & _ & ->)|
           (pc & s & _ & _ & _ & _ & Hid & _ & _ & _ & _ & ->)]]]];
      simpl; auto.
    now apply keyed_set.
  - destruct (validateSession_cases cfg now tok st)
      as [(_ & ->)|[(k & s & _ & _ & ->)|(k & s & Hf & _ & ->)]]; simpl; auto.
    + now apply keyed_filter.
    + apply findByToken_In in Hf as [Hin _].
      apply keyed_set; auto.
      destruct (touch_fields cfg now s) as (-> & _). auto.
  - rewrite cleanupExpiredSessions_sessions. now apply keyed_filter.
  - exact Hk.
  - unfold revokeSession. destruct (JsMap.has sessionId (sessions st)); simpl; auto.
    now apply keyed_filter.
  - intros k s [].
  - unfold cleanupTick. simpl. rewrite cleanupExpiredSessions_sessions. simpl.
    now apply keyed_filter.
Qed.

Lemma run_keyed cfg tr : forall st,
  keyed (sessions st) -> keyed (sessions (run cfg tr st)).
Proof.
  induction tr as [|[now op] tr IH]; simpl; intros st Hk; auto.
  apply IH. now apply exec_keyed.
Qed.

Lemma loadSessions_well_keyed file : forall acc,
  JsMap.wf acc -> keyed acc ->
  JsMap.wf (List.fold_left (fun m s => JsMap.set (id s) s m) file acc)
  /\ keyed (List.fold_left (fun m s => JsMap.set (id s) s m) file acc).
Proof.
  induction file as [|s file IH]; intros acc Hwf Hk; simpl; [auto|].
  apply IH; [now apply JsMapFacts.wf_set|now apply keyed_set].
Qed.

(** X11. Whatever [sessions.json] contains at start-up, and whatever is then
    done, the session ids held by the store are pairwise distinct and every
    session sits under its own [id]: [getSession] of an id returns a session
    with that id. *)
Theorem store_well_keyed cfg now file tr :
  let st := run cfg tr (initializeStorage now file) in
  JsMap.wf (sessions st)
  /\ keyed (sessions st)
  /\ forall sid s, getSession sid st = Some s -> id s = sid.
Proof.
  intros st.
  assert (Hstart : JsMap.wf (sessions (initializeStorage now file))
                   /\ keyed (sessions (initializeStorage now file))).
  { unfold initializeStorage. rewrite cleanupExpiredSessions_sessions.
    destruct file as [l|]; simpl.
    - destruct (loadSessions_well_keyed l []) as [Hwf Hk];
        [constructor|intros k s []|].
      split; [now apply JsMapFacts.wf_filter|now apply keyed_filter].
    - split; [constructor|intros k s []]. }
  destruct Hstart as [Hwf Hk].
  assert (Hk' : keyed (sessions st)) by now apply run_keyed.
  split; [now apply run_wf|]. split; [exact Hk'|].
  intros sid s Hg. apply Hk'. now apply JsMapFacts.get_In.
Qed.

(** ** From pairing to an authenticated session *)

Lemma orDefault_nonempty a b : b <> "" -> orDefault a b <> "".
Proof.
  intros Hb. unfold orDefault. destruct a as [s|]; auto.
  destruct (String.eqb_spec s ""); auto.
Qed.

(** X12. The session a successful [completePairing] returns: its device
    name is never empty (the name given at initiation, or "Unknown Device"
    when none or an empty one was given); its address is the caller's when
    the caller has one and the one recorded at initiation otherwise; it has
    no user agent; it is created and last used now and expires
    [SESSION_TOKEN_EXPIRY] seconds later. *)
Theorem completePairing_session cfg now code sid ip tok st s st' :
  completePairing cfg now code sid ip tok st = (Ok s, st') ->
  exists pc,
    pairingCodes st !! toUpperCase code = Some pc
    /\ deviceName s <> ""
    /\ deviceName s = orDefault (pc_deviceName pc) "Unknown Device"
    /\ (truthy ip = true -> ipAddress s = ip)
    /\ (truthy ip = false -> ipAddress s = pc_ipAddress pc)
    /\ userAgent s = None
    /\ token s = tok
    /\ createdAt s = now /\ lastUsedAt s = now
    /\ expiresAt s = now + SESSION_TOKEN_EXPIRY cfg * 1000.
Proof.
  unfold completePairing.
  destruct (pairingCodes st !! toUpperCase code) as [pc|]; [|discriminate].
  destruct (negb (String.eqb (pc_sessionId pc) sid)); [discriminate|].
  destruct (pc_expiresAt pc <? now); [discriminate|].
  destruct (SESSION_MAX_PER_USER cfg <=? JsMap.size (sessions st));
    [discriminate|].
  intros [= <- <-]. exists pc. simpl.
  split; [reflexivity|]. split; [now apply orDefault_nonempty|].
  split; [reflexivity|]. unfold orElse.
  split; [now intros ->|]. split; [now intros ->|]. repeat split.
Qed.

Lemma completePairing_session_witness :
  deviceName Scenario.phoneSession = "phone"
  /\ expiresAt Scenario.phoneSession = 2000 + 2592000 * 1000.
Proof.
  assert (Hc : completePairing defaultConfig 2000 "a7k9m2" "s1" None "tok1"
                               Scenario.pending
               = (Ok Scenario.phoneSession, snd Scenario.first_lower))
    by (vm_compute; reflexivity).
  destruct (completePairing_session _ _ _ _ _ _ _ _ _ Hc)
    as (pc & _ & _ & _ & _ & _ & _ & _ & _ & _ & Hexp).
  split; [reflexivity|exact Hexp].
Defined.

Lemma findByToken_set_fresh tok m k s :
  findByToken tok m = None -> token s = tok ->
  findByToken tok (JsMap.set k s m) = Some (k, s).
Proof.
  intros Hnone Ht. induction m as [|[k0 s0] m IH]; simpl in *.
  - now rewrite Ht, String.eqb_refl.
  - destruct (String.eqb_spec (token s0) tok) as [E|E]; [discriminate|].
    destruct (String.eqb_spec k k0) as [->|Hne]; simpl.
    + now rewrite Ht, String.eqb_refl.
    + destruct (String.eqb_spec (token s0) tok); [contradiction|]. auto.
Qed.

(** X13. The token issued by [completePairing] authenticates the session it
    was issued for: when no session held that token before, validating it at
    any time up to the session's [expiresAt] returns that session (touched),
    with the [id] of the pairing. *)
Theorem issued_token_validates cfg now code sid ip tok st s st' now' :
  completePairing cfg now code sid ip tok st = (Ok s, st') ->
  findByToken tok (sessions st) = None ->
  now' <= expiresAt s ->
  fst (validateSession cfg now' tok st') = Some (touch cfg now' s)
  /\ id (touch cfg now' s) = sid
  /\ getSession sid (snd (validateSession cfg now' tok st'))
     = Some (touch cfg now' s).
Proof.
  intros Hc Hfresh Hlive.
  destruct (completePairing_cases cfg now code sid ip tok st)
    as [(_ & E)|[(pc & _ & _ & E)|[(pc & _ & _ & _ & E)|
        [(pc & _ & _ & _ & _ & E)|
         (pc & s1 & _ & _ & _ & _ & Hid & Htok & _ & _ & _ & E)]]]];
    rewrite Hc in E; try discriminate.
  injection E as <- ->.
  assert (Hf : findByToken tok (sessions
                 (saveSessions
                    (withPairingCodes
                       (withSessions st (JsMap.set sid s (sessions st)))
                       (delete code (pairingCodes st)))))
               = Some (sid, s))
    by (simpl; now apply findByToken_set_fresh).
  rewrite (validateSession_live cfg now' tok _ sid s Hf Hlive). simpl.
  split; [reflexivity|].
  split; [destruct (touch_fields cfg now' s) as (-> & _); exact Hid|].
  unfold getSession. simpl. apply JsMapFacts.get_set_eq.
Qed.

Lemma issued_token_validates_witness :
  fst (validateSession defaultConfig 5000 "tok1" (snd Scenario.first_lower))
  = Some (touch defaultConfig 5000 Scenario.phoneSession).
Proof.
  assert (Hc : completePairing defaultConfig 2000 "a7k9m2" "s1" None "tok1"
                               Scenario.pending
               = (Ok Scenario.phoneSession, snd Scenario.first_lower))
    by (vm_compute; reflexivity).
  refine (proj1 (issued_token_validates _ _ _ _ _ _ _ _ _ 5000 Hc _ _)).
  - reflexivity.
  - simpl. lia.
Defined.

(** X14. A pairing that was initiated can be completed: under any spelling
    of the code returned, with the correlation id returned, at any time up
    to the code's [expiresAt] and while the store is below capacity,
    [completePairing] succeeds with a session whose [id] is the correlation
    id.  With another correlation id it throws [PAIRING_CODE_INVALID] and
    changes nothing, whatever was stored before. *)
Theorem initiated_pairing_completes
    cfg t0 dn ip0 code0 sid0 st0 r st1 now code ip tok :
  initiatePairing cfg t0 dn ip0 code0 sid0 st0 = (Ok r, st1) ->
  toUpperCase code = ir_code r ->
  (now <= t0 + ir_expiresIn r * 1000 ->
   JsMap.size (sessions st1) < SESSION_MAX_PER_USER cfg ->
   exists s st2,
     completePairing cfg now code (ir_sessionId r) ip tok st1 = (Ok s, st2)
     /\ id s = ir_sessionId r
     /\ deviceName s = orDefault dn "Unknown Device")
  /\ (forall sid, sid <> ir_sessionId r ->
        completePairing cfg now code sid ip tok st1
        = (Throw PAIRING_CODE_INVALID, st1)).
Proof.
  intros Hinit Hup.
  apply initiatePairing_stores in Hinit
    as (_ & _ & Hexp & pc & Hpc & Hsid & Hat & Hdn).
  rewrite <- Hup in Hpc. split.
  - intros Hlive Hcap. rewrite Hexp in Hlive.
    unfold completePairing. rewrite Hpc, Hsid, String.eqb_refl. simpl.
    destruct (Z.ltb_spec (pc_expiresAt pc) now); [lia|].
    destruct (Z.leb_spec (SESSION_MAX_PER_USER cfg) (JsMap.size (sessions st1)));
      [lia|].
    eexists _, _. split; [reflexivity|]. simpl. rewrite Hdn. auto.
  - intros sid Hne. unfold completePairing. rewrite Hpc.
    destruct (String.eqb_spec (pc_sessionId pc) sid); [congruence|reflexivity].
Qed.

Lemma initiated_pairing_completes_witness :
  exists s st2,
    completePairing defaultConfig 301000 "a7k9m2" "s1" None "tok1" Scenario.pending
    = (Ok s, st2)
    /\ id s = "s1" /\ deviceName s = "phone".
Proof.
  assert (Hi : initiatePairing defaultConfig 1000 (Some "phone") None
                               "A7K9M2" "s1" initialState
               = (Ok Scenario.phoneInitiated, Scenario.pending))
    by (vm_compute; reflexivity).
  apply (proj1 (initiated_pairing_completes defaultConfig 1000 (Some "phone") None
                  "A7K9M2" "s1" initialState Scenario.phoneInitiated
                  Scenario.pending 301000 "a7k9m2" None "tok1" Hi eq_refl)).
  - simpl. lia.
  - vm_compute. reflexivity.
Defined.

(** ** Revoking *)


(** ** The session guard *)

Lemma prefix_Bearer h :
  String.prefix "Bearer " h = true ->
  h = String.append "Bearer " (substringFrom 7 h).
Proof.
  intros Hp.
  do 7 (destruct h as [|? h]; simpl in Hp; [discriminate|];
        match type of Hp with
        | (if ?d then _ else _) = true =>
            destruct d as [<-|_]; [|discriminate]
        end).
  reflexivity.
Qed.

(** X16. The bearer token is read from the header and from nothing else: a
    request carries the token [tok] exactly when its [authorization] header
    is the text "Bearer " followed by [tok]. *)
Theorem bearerToken_header req tok :
  bearerToken req = Some tok
  <-> req_authorization req = Some (String.append "Bearer " tok).
Proof.
  unfold bearerToken. split.
  - destruct (req_authorization req) as [h|]; [|discriminate].
    destruct (negb (String.eqb h "")); simpl; [|discriminate].
    destruct (String.prefix "Bearer " h) eqn:Hp; [|discriminate].
    intros [= <-]. f_equal. now apply prefix_Bearer.
  - intros ->. destruct tok; vm_compute; reflexivity.
Qed.


(** What the guard does with the store, whatever it answers: nothing
    without a bearer token, and [validateSession] on the token otherwise. *)
Lemma sessionAuth_state g cfg now req st :
  snd (sessionAuth g cfg now req st)
  = match bearerToken req with
    | None => st
    | Some tok => snd (validateSession cfg now tok st)
    end.
Proof.
  unfold sessionAuth. destruct (bearerToken req) as [tok|]; [|reflexivity].
  destruct (validateSession cfg now tok st) as [[s|] st1]; simpl; [|reflexivity].
  destruct (_ && _ && _); [reflexivity|].
  destruct (_ && _ && _); reflexivity.
Qed.


(** X18. A refusal for a binding mismatch comes after the session has been
    validated: when the token belongs to an unexpired session, that session
    is touched ([lastUsedAt] set to now, and [expiresAt] moved under sliding
    expiry) whatever the guard then answers; and with address binding on, a
    session that records an address and a client address that differs from
    it, the answer is a 401 [SESSION_INVALID], "Session IP mismatch". *)
Theorem sessionAuth_mismatch_still_touches g cfg now req st tok k s :
  bearerToken req = Some tok ->
  findByToken tok (sessions st) = Some (k, s) ->
  now <= expiresAt s ->
  JsMap.get k (sessions (snd (sessionAuth g cfg now req st)))
  = Some (touch cfg now s)
  /\ (SESSION_IP_BINDING g = true ->
      truthy (ipAddress s) = true ->
      strictNe (orElse (req_ip req) (req_remoteAddress req)) (ipAddress s) = true ->
      fst (sessionAuth g cfg now req st)
      = Answer {| status := 401; code := Some SESSION_INVALID;
                  error := "Session IP mismatch" |}).
Proof.
  intros Hb Hf Hlive. split.
  - rewrite sessionAuth_state, Hb.
    rewrite (validateSession_live cfg now tok st k s Hf Hlive). simpl.
    apply JsMapFacts.get_set_eq.
  - intros Hon Hrec Hne. unfold sessionAuth. rewrite Hb.
    rewrite (validateSession_live cfg now tok st k s Hf Hlive).
    destruct (touch_fields cfg now s) as (_ & _ & _ & _ & -> & _).
    now rewrite Hon, Hrec, Hne.
Qed.

(** X19. The optional guard never refuses and never applies the address or
    user-agent bindings: it always calls [next()], does to the store exactly
    what [sessionAuth] does, attaches what [sessionAuth] attaches whenever
    [sessionAuth] lets the request through, and attaches a session whenever
    the bearer token validates. *)
Theorem optionalSessionAuth_never_refuses g cfg now req st :
  (exists o, fst (optionalSessionAuth cfg now req st) = Next o)
  /\ snd (optionalSessionAuth cfg now req st) = snd (sessionAuth g cfg now req st)
  /\ (forall info,
        fst (sessionAuth g cfg now req st) = Next info ->
        fst (optionalSessionAuth cfg now req st) = Next info)
  /\ (forall tok s,
        bearerToken req = Some tok ->
        fst (validateSession cfg now tok st) = Some s ->
        fst (optionalSessionAuth cfg now req st) = Next (Some (infoOf s))).
Proof.
  unfold optionalSessionAuth, sessionAuth.
  destruct (bearerToken req) as [tok|]; simpl.
  - destruct (validateSession cfg now tok st) as [[s|] st1] eqn:Hv; simpl.
    + split; [eauto|].
      split; [destruct (_ && _ && _); [reflexivity|];
              destruct (_ && _ && _); reflexivity|].
      split.
      * intros info. destruct (_ && _ && _); [discriminate|].
        destruct (_ && _ && _); [discriminate|]. auto.
      * intros tok' s' [= <-] Hs. rewrite Hv in Hs. injection Hs as <-. reflexivity.
    + split; [eauto|]. split; [reflexivity|]. split; [discriminate|].
      intros tok' s' [= <-] Hs. rewrite Hv in Hs. discriminate.
  - split; [eauto|]. split; [reflexivity|]. split; [discriminate|].
    intros tok' s' [=].
Qed.

Lemma sessionAuth_mismatch_still_touches_witness :
  let req := {| req_authorization := Some "Bearer tok1";
                req_ip := Some "10.9.9.9"; req_remoteAddress := None;
                req_userAgent := None |} in
  let g := {| SESSION_IP_BINDING := true; SESSION_USER_AGENT_CHECK := false |} in
  (lastUsedAt <$> JsMap.get "s1"
     (sessions (snd (sessionAuth g Scenario.cfgTwo 6000 req Scenario.twoPaired))))
  = Some 6000
  /\ fst (sessionAuth g Scenario.cfgTwo 6000 req Scenario.twoPaired)
     = Answer {| status := 401; code := Some SESSION_INVALID;
                 error := "Session IP mismatch" |}.
Proof.
  intros req g.
  destruct (sessionAuth_mismatch_still_touches g Scenario.cfgTwo 6000 req
              Scenario.twoPaired "tok1" "s1"
              {| id := "s1"; token := "tok1"; deviceName := "phone";
                 createdAt := 2000; lastUsedAt := 2000;
                 expiresAt := 2592002000;
                 ipAddress := Some "10.0.0.7"; userAgent := None |})
    as [Htouched Hanswer].
  - reflexivity.
  - vm_compute. reflexivity.
  - simpl. lia.
  - split; [rewrite Htouched; reflexivity|].
    apply Hanswer; reflexivity.
Defined.

(** ** The pairing routes *)

Lemma completePairing_throws cfg now c sid ip tok st e st' :
  completePairing cfg now c sid ip tok st = (Throw e, st') ->
  e = PAIRING_CODE_INVALID \/ e = PAIRING_CODE_EXPIRED
  \/ e = SESSION_LIMIT_REACHED.
Proof.
  intros Hc.
  destruct (completePairing_cases cfg now c sid ip tok st)
    as [(_ & E)|[(pc & _ & _ & E)|[(pc & _ & _ & _ & E)|
        [(pc & _ & _ & _ & _ & E)|
         (pc & s & _ & _ & _ & _ & _ & _ & _ & _ & _ & E)]]]];
    rewrite Hc in E; injection E; intros; subst; auto; discriminate.
Qed.

Lemma completePairing_userAgent cfg now c sid ip tok st s st' :
  completePairing cfg now c sid ip tok st = (Ok s, st') -> userAgent s = None.
Proof.
  unfold completePairing.
  destruct (pairingCodes st !! toUpperCase c) as [pc|]; [|discriminate].
  destruct (negb (String.eqb (pc_sessionId pc) sid)); [discriminate|].
  destruct (pc_expiresAt pc <? now); [discriminate|].
  destruct (SESSION_MAX_PER_USER cfg <=? JsMap.size (sessions st));
    [discriminate|].
  now intros [= <- <-].
Qed.

Lemma values_set_same {V} k (v v0 : V) (m : JsMap.t V) :
  JsMap.get k m = Some v0 ->
  JsMap.values (JsMap.set k v m) = JsMap.values m -> v = v0.
Proof.
  unfold JsMap.values. induction m as [|[k1 v1] m IH]; simpl; [discriminate|].
  destruct (String.eqb_spec k k1) as [->|Hne]; simpl.
  - intros [= ->] [= ->]. reflexivity.
  - intros Hg [= Heq]. auto.
Qed.

(** X21. The user agent that [POST /complete] records for user-agent
    binding reaches the map but not the file: the session stored under the
    correlation id carries it, while [sessions.json] still holds what
    [completePairing] wrote, the same session without a user agent. *)
Theorem routeComplete_userAgent_not_persisted g cfg now c sid req tok st s' st' ua :
  routeComplete g cfg now (Some c) (Some sid) req tok st = (inr s', st') ->
  SESSION_USER_AGENT_CHECK g = true ->
  req_userAgent req = Some ua -> ua <> "" ->
  userAgent s' = Some ua
  /\ getSession sid st' = Some s'
  /\ sessionsFile st'
     = sessionsFile
         (snd (completePairing cfg now c sid
                 (orElse (req_ip req) (req_remoteAddress req)) tok st))
  /\ List.In (setUserAgent s' None) (sessionsFile st')
  /\ ~ inSync st'.
Proof.
  unfold routeComplete. intros Hr Hon Hua Hne.
  destruct (truthy (Some c)) eqn:Htc; destruct (truthy (Some sid)) eqn:Hts;
    cbn [negb orb andb] in Hr; try discriminate.
  destruct (completePairing cfg now c sid _ tok st) as [[s|e] st1] eqn:Hc.
  - assert (Htruthy : truthy (req_userAgent req) = true).
    { rewrite Hua. simpl. destruct (String.eqb_spec ua ""); [contradiction|reflexivity]. }
    rewrite Htruthy, Hon in Hr. simpl in Hr. injection Hr as <- <-.
    pose proof (completePairing_userAgent _ _ _ _ _ _ _ _ _ Hc) as Hnoua.
    destruct (completePairing_cases cfg now c sid
                (orElse (req_ip req) (req_remoteAddress req)) tok st)
      as [(_ & E)|[(pc1 & _ & _ & E)|[(pc1 & _ & _ & _ & E)|
          [(pc1 & _ & _ & _ & _ & E)|
           (pc1 & s1 & _ & _ & _ & _ & _ & _ & _ & _ & _ & E)]]]];
      rewrite Hc in E; try discriminate.
    injection E as <- ->. simpl.
    assert (Hs : setUserAgent (setUserAgent s (req_userAgent req)) None = s).
    { destruct s. simpl in *. now subst. }
    assert (Hget : JsMap.get sid (JsMap.set sid s (sessions st)) = Some s)
      by apply JsMapFacts.get_set_eq.
    split; [exact Hua|].
    split; [unfold getSession; simpl; apply JsMapFacts.get_set_eq|].
    split; [reflexivity|]. split.
    + rewrite Hs. unfold JsMap.values. apply List.in_map_iff.
      exists (sid, s). split; [reflexivity|now apply JsMapFacts.get_In].
    + unfold inSync. simpl. intros Heq. symmetry in Heq.
      apply (values_set_same sid _ s) in Heq; [|exact Hget].
      assert (Hbad : userAgent (setUserAgent s (req_userAgent req)) = userAgent s)
        by now rewrite Heq.
      simpl in Hbad. congruence.
  - destruct e; discriminate.
Qed.

Lemma routeComplete_userAgent_not_persisted_witness :
  let req := {| req_authorization := None; req_ip := None;
                req_remoteAddress := None; req_userAgent := Some "Mozilla" |} in
  let g := {| SESSION_IP_BINDING := false; SESSION_USER_AGENT_CHECK := true |} in
  let out := routeComplete g defaultConfig 2000 (Some "a7k9m2") (Some "s1") req
                           "tok1" Scenario.pending in
  (userAgent <$> getSession "s1" (snd out)) = Some (Some "Mozilla")
  /\ sessionsFile (snd out) = [Scenario.phoneSession].
Proof.
  intros req g out.
  assert (Hr : routeComplete g defaultConfig 2000 (Some "a7k9m2") (Some "s1") req
                 "tok1" Scenario.pending
               = (inr (setUserAgent Scenario.phoneSession (Some "Mozilla")),
                  snd out))
    by (vm_compute; reflexivity).
  destruct (routeComplete_userAgent_not_persisted _ _ _ _ _ _ _ _ _ _ "Mozilla"
              Hr eq_refl eq_refl)
    as (_ & Hget & Hfile & _); [discriminate|].
  split; [now rewrite Hget|].
  rewrite Hfile. vm_compute. reflexivity.
Defined.






(** * When the write of [sessions.json] fails *)

(** ** The general calls and the calls whose write succeeds *)

Lemma validateSessionIO_resolved cfg now tok st :
  validateSessionIO true cfg now tok st
  = (Returned (fst (validateSession cfg now tok st)),
     snd (validateSession cfg now tok st)).
Proof.
  unfold validateSessionIO, validateSession.
  destruct (findByToken tok (sessions st)) as [[k s]|]; [|reflexivity].
  destruct (expiresAt s <? now); reflexivity.
Qed.

Lemma completePairingIO_settles saveOk cfg now c sid ip tok st :
  completePairingIO saveOk cfg now c sid ip tok st
  = match completePairing cfg now c sid ip tok st with
    | (Ok s, st') =>
        if saveOk then (Returned s, st')
        else (Failed, withSessionsFile st' (sessionsFile st))
    | (Throw e, st') => (Threw e, st')
    end.
Proof.
  unfold completePairingIO, completePairing.
  destruct (pairingCodes st !! toUpperCase c) as [pc|]; [|reflexivity].
  destruct (negb (String.eqb (pc_sessionId pc) sid)); [reflexivity|].
  destruct (pc_expiresAt pc <? now); [reflexivity|].
  destruct (SESSION_MAX_PER_USER cfg <=? JsMap.size (sessions st));
    [reflexivity|].
  destruct saveOk; reflexivity.
Qed.

Lemma sessionAuthIO_resolved g cfg now req st :
  sessionAuthIO true g cfg now req st = sessionAuth g cfg now req st.
Proof.
  unfold sessionAuthIO, sessionAuth.
  destruct (bearerToken req) as [tok|]; [|reflexivity].
  rewrite validateSessionIO_resolved.
  destruct (validateSession cfg now tok st) as [[s|] st1]; reflexivity.
Qed.

(** ** The scan, stated on the store *)

Lemma findByToken_first tok m k s :
  findByToken tok m = Some (k, s) <-> firstWithToken tok m k s.
Proof.
  unfold firstWithToken. split.
  - revert k s. induction m as [|[k0 s0] m IH]; simpl; intros k s; [discriminate|].
    destruct (String.eqb_spec (token s0) tok) as [E|E].
    + intros [= <- <-]. exists [], m. simpl.
      split; [reflexivity|]. split; [intros k' s' []|exact E].
    + intros Hf. destruct (IH k s Hf) as (before & after & -> & Hb & Ht).
      exists ((k0, s0) :: before), after. simpl.
      split; [reflexivity|]. split; [|exact Ht].
      intros k' s' [[= <- <-]|Hin]; eauto.
  - intros (before & after & -> & Hb & Ht).
    induction before as [|[k0 s0] before IH]; simpl.
    + destruct (String.eqb_spec (token s) tok); [reflexivity|contradiction].
    + destruct (String.eqb_spec (token s0) tok) as [E|E].
      * exfalso. apply (Hb k0 s0); [now left|exact E].
      * apply IH. intros k' s' Hin. apply (Hb k' s'). now right.
Qed.

Lemma firstWithToken_In tok m k s :
  firstWithToken tok m k s -> List.In (k, s) m /\ token s = tok.
Proof.
  intros (before & after & -> & _ & Ht). split; [|exact Ht].
  apply List.in_app_iff. right. now left.
Qed.

Lemma validateSessionIO_cases saveOk cfg now tok st :
  let r := validateSessionIO saveOk cfg now tok st in
  ((forall k s, List.In (k, s) (sessions st) -> token s <> tok)
   /\ r = (Returned None, st))
  \/ (exists k s, firstWithToken tok (sessions st) k s
      /\ expiresAt s < now
      /\ fst r = (if saveOk then Returned None else Failed)
      /\ sessions (snd r) = JsMap.delete k (sessions st))
  \/ (exists k s, firstWithToken tok (sessions st) k s
      /\ now <= expiresAt s
      /\ fst r = (if saveOk then Returned (Some (touch cfg now s)) else Failed)
      /\ sessions (snd r) = JsMap.set k (touch cfg now s) (sessions st)).
Proof.
  unfold validateSessionIO.
  destruct (findByToken tok (sessions st)) as [[k s]|] eqn:Hf.
  - apply findByToken_first in Hf. right.
    destruct (Z.ltb_spec (expiresAt s) now); [left|right];
      exists k, s; destruct saveOk; simpl; auto.
  - left. split; [now apply findByToken_None|reflexivity].
Qed.

Lemma firstWithToken_unique tok m k s k' s' :
  firstWithToken tok m k s -> firstWithToken tok m k' s' -> k = k' /\ s = s'.
Proof.
  intros H1 H2. apply findByToken_first in H1, H2.
  rewrite H1 in H2. now injection H2.
Qed.

(** ** Validation *)

(** C5 (amended). [validateSession] throws none of the [ERROR_CODES], and it
    rejects exactly when a session carrying the token is stored and the
    write of [sessions.json] fails.  A token that no stored session carries
    returns [null] with the state unchanged and no write, so it cannot
    fail; so does a token whose only session was revoked, and any token
    after [revokeAllSessions].  When the first stored session carrying the
    token has expired, the entry is removed from the map, [getSession]
    no longer finds it, every session listed by a later [getSessions] is
    stored under another key, and the call returns [null] if the write
    succeeds; when it has not expired, it is touched in place and returned
    if the write succeeds.  With a successful write, [null] is returned
    exactly in the absence cases: no stored session carries the token, or
    the first that does has expired. *)
Theorem validateSession_absence saveOk cfg now tok st :
  (forall e, fst (validateSessionIO saveOk cfg now tok st) <> Threw e)
  /\ (fst (validateSessionIO saveOk cfg now tok st) = Failed
      <-> saveOk = false /\ exists k s, firstWithToken tok (sessions st) k s)
  /\ ((forall k s, List.In (k, s) (sessions st) -> token s <> tok)
      -> validateSessionIO saveOk cfg now tok st = (Returned None, st))
  /\ (forall sid,
        (forall k s, List.In (k, s) (sessions st) -> token s = tok -> k = sid)
        -> validateSessionIO saveOk cfg now tok (snd (revokeSession sid st))
           = (Returned None, snd (revokeSession sid st)))
  /\ validateSessionIO saveOk cfg now tok (snd (revokeAllSessions st))
     = (Returned None, snd (revokeAllSessions st))
  /\ (forall k s,
        firstWithToken tok (sessions st) k s ->
        let r := validateSessionIO saveOk cfg now tok st in
        (expiresAt s < now ->
           fst r = (if saveOk then Returned None else Failed)
           /\ sessions (snd r) = JsMap.delete k (sessions st)
           /\ getSession k (snd r) = None
           /\ forall now' s', List.In s' (fst (getSessions now' (snd r))) ->
                exists k', k' <> k /\ List.In (k', s') (sessions st))
        /\ (now <= expiresAt s ->
           fst r = (if saveOk then Returned (Some (touch cfg now s)) else Failed)
           /\ sessions (snd r) = JsMap.set k (touch cfg now s) (sessions st)
           /\ getSession k (snd r) = Some (touch cfg now s)))
  /\ (fst (validateSessionIO true cfg now tok st) = Returned None
      <-> ((forall k s, List.In (k, s) (sessions st) -> token s <> tok)
           \/ exists k s, firstWithToken tok (sessions st) k s
                          /\ expiresAt s < now)).
Proof.
  assert (Hnever : forall st0,
             (forall k s, List.In (k, s) (sessions st0) -> token s <> tok) ->
             validateSessionIO saveOk cfg now tok st0 = (Returned None, st0)).
  { intros st0 Hnone. apply findByToken_None in Hnone.
    unfold validateSessionIO. now rewrite Hnone. }
  split; [|split; [|split; [|split; [|split; [|split]]]]].
  - intros e.
    destruct (validateSessionIO_cases saveOk cfg now tok st)
      as [(_ & ->)|[(k & s & _ & _ & -> & _)|(k & s & _ & _ & -> & _)]];
      simpl; destruct saveOk; discriminate.
  - destruct (validateSessionIO_cases saveOk cfg now tok st)
      as [(Hnone & ->)|[(k & s & Hf & _ & -> & _)|(k & s & Hf & _ & -> & _)]];
      simpl.
    + split; [discriminate|]. intros (_ & k & s & Hf).
      apply firstWithToken_In in Hf as [Hin Ht]. exfalso. eapply Hnone; eauto.
    + destruct saveOk; split; try discriminate; eauto.
      intros [[=] _].
    + destruct saveOk; split; try discriminate; eauto.
      intros [[=] _].
  - apply Hnever.
  - intros sid Honly. apply Hnever. intros k s Hin Ht.
    unfold revokeSession in Hin.
    destruct (JsMap.has sid (sessions st)) eqn:Hhas; simpl in Hin.
    + apply JsMapFacts.In_delete in Hin as [Hin Hne].
      apply Hne. symmetry. eauto.
    + assert (k = sid) by eauto. subst k.
      unfold JsMap.has in Hhas.
      destruct (JsMap.get sid (sessions st)) eqn:Hg; [discriminate|].
      eapply JsMapFacts.get_None_not_In; eauto.
  - apply Hnever. intros k s [].
  - intros k s Hf r. subst r.
    destruct (validateSessionIO_cases saveOk cfg now tok st)
      as [(Hnone & _)|[(k1 & s1 & Hf1 & Hx & Hr & Hs)|(k1 & s1 & Hf1 & Hx & Hr & Hs)]].
    + apply firstWithToken_In in Hf as [Hin Ht]. exfalso. eapply Hnone; eauto.
    + destruct (firstWithToken_unique _ _ _ _ _ _ Hf Hf1) as [<- <-].
      split; [|intros; lia]. intros _.
      split; [exact Hr|]. split; [exact Hs|].
      split; [unfold getSession; rewrite Hs; apply JsMapFacts.get_delete_eq|].
      intros now' s'. unfold getSessions. simpl.
      rewrite cleanupExpiredSessions_sessions, Hs.
      unfold JsMap.values. intros Hin.
      apply List.in_map_iff in Hin as [[k' s0] [Heq Hin]]. simpl in Heq. subst s0.
      apply List.filter_In in Hin as [Hin _].
      apply JsMapFacts.In_delete in Hin as [Hin Hne].
      exists k'. split; auto.
    + destruct (firstWithToken_unique _ _ _ _ _ _ Hf Hf1) as [<- <-].
      split; [intros; lia|]. intros _.
      split; [exact Hr|]. split; [exact Hs|].
      unfold getSession. rewrite Hs. apply JsMapFacts.get_set_eq.
  - destruct (validateSessionIO_cases true cfg now tok st)
      as [(Hnone & ->)|[(k & s & Hf & Hx & -> & _)|(k & s & Hf & Hx & -> & _)]];
      simpl.
    + split; auto.
    + split; eauto.
    + split; [discriminate|].
      intros [Hnone|(k' & s' & Hf' & Hx')].
      * apply firstWithToken_In in Hf as [Hin Ht]. exfalso. eapply Hnone; eauto.
      * destruct (firstWithToken_unique _ _ _ _ _ _ Hf Hf') as [<- <-]. lia.
Qed.

(** C5 as claimed does not hold: on the paired phone, with a write that
    fails, validating the token of the expired session rejects instead of
    returning [null] (the entry has been removed from the map all the
    same), and validating the token of the live session rejects instead of
    returning the session. *)
Lemma validateSession_rejects_on_failed_write :
  fst (validateSessionIO false defaultConfig 2592002001 "tok1" Scenario.onePaired)
  = Failed
  /\ getSession "s1"
       (snd (validateSessionIO false defaultConfig 2592002001 "tok1"
               Scenario.onePaired)) = None
  /\ fst (validateSessionIO false defaultConfig 5000 "tok1" Scenario.onePaired)
     = Failed.
Proof. repeat split; vm_compute; reflexivity. Qed.

Lemma validateSession_absence_witness :
  validateSessionIO true defaultConfig 5000 "nope" Scenario.onePaired
  = (Returned None, Scenario.onePaired)
  /\ fst (validateSessionIO true defaultConfig 2592002001 "tok1" Scenario.onePaired)
     = Returned None
  /\ getSession "s1"
       (snd (validateSessionIO true defaultConfig 2592002001 "tok1"
               Scenario.onePaired)) = None
  /\ fst (validateSessionIO true defaultConfig 5000 "tok1" Scenario.onePaired)
     = Returned (Some Scenario.touched).
Proof.
  assert (Hfirst : firstWithToken "tok1" (sessions Scenario.onePaired) "s1"
                                  Scenario.phoneSession).
  { exists [], []. split; [vm_compute; reflexivity|].
    split; [intros k s []|reflexivity]. }
  split; [|split; [|split]].
  - apply (proj1 (proj2 (proj2
             (validateSession_absence true defaultConfig 5000 "nope"
                Scenario.onePaired)))).
    intros k s Hin. vm_compute in Hin.
    destruct Hin as [[= <- <-]|[]]. discriminate.
  - destruct (proj1 (proj2 (proj2 (proj2 (proj2 (proj2
                (validateSession_absence true defaultConfig 2592002001 "tok1"
                   Scenario.onePaired))))))
                "s1" Scenario.phoneSession Hfirst) as [Hexp _].
    destruct Hexp as (Hr & _); [simpl; lia|exact Hr].
  - destruct (proj1 (proj2 (proj2 (proj2 (proj2 (proj2
                (validateSession_absence true defaultConfig 2592002001 "tok1"
                   Scenario.onePaired))))))
                "s1" Scenario.phoneSession Hfirst) as [Hexp _].
    destruct Hexp as (_ & _ & Hg & _); [simpl; lia|exact Hg].
  - destruct (proj1 (proj2 (proj2 (proj2 (proj2 (proj2
                (validateSession_absence true defaultConfig 5000 "tok1"
                   Scenario.onePaired))))))
                "s1" Scenario.phoneSession Hfirst) as [_ Hlive].
    destruct Hlive as (Hr & _); [simpl; lia|exact Hr].
Defined.

(** ** The guard *)


(** ** The pairing route *)

Lemma completePairingIO_threw saveOk cfg now c sid ip tok st e st' :
  completePairingIO saveOk cfg now c sid ip tok st = (Threw e, st') ->
  completePairing cfg now c sid ip tok st = (Throw e, st')
  /\ (e = PAIRING_CODE_INVALID \/ e = PAIRING_CODE_EXPIRED
      \/ e = SESSION_LIMIT_REACHED).
Proof.
  rewrite completePairingIO_settles.
  destruct (completePairing cfg now c sid ip tok st) as [[s|e0] st0] eqn:Hc.
  - destruct saveOk; discriminate.
  - intros [= <- <-]. split; [reflexivity|].
    now apply completePairing_throws in Hc.
Qed.

Lemma completePairingIO_failed saveOk cfg now c sid ip tok st :
  fst (completePairingIO saveOk cfg now c sid ip tok st) = Failed ->
  saveOk = false
  /\ exists s st',
       completePairing cfg now c sid ip tok st = (Ok s, st')
       /\ snd (completePairingIO saveOk cfg now c sid ip tok st)
          = withSessionsFile st' (sessionsFile st).
Proof.
  rewrite completePairingIO_settles.
  destruct (completePairing cfg now c sid ip tok st) as [[s|e0] st0] eqn:Hc;
    [|discriminate].
  destruct saveOk; [discriminate|]. simpl. eauto.
Qed.

(** On a body of two strings and with a write that succeeds, the general
    route is the route above. *)
Lemma routeCompleteIO_resolved g cfg now c sid req tok st :
  routeCompleteIO true g cfg now (JString c) (JString sid) req tok st
  = (match fst (routeComplete g cfg now (Some c) (Some sid) req tok st) with
     | inl r => Replied r
     | inr s => Success s
     end,
     snd (routeComplete g cfg now (Some c) (Some sid) req tok st)).
Proof.
  unfold routeCompleteIO, routeComplete. simpl.
  destruct (negb (negb (String.eqb c "")) || negb (negb (String.eqb sid "")));
    [reflexivity|].
  rewrite completePairingIO_settles.
  destruct (completePairing cfg now c sid _ tok st) as [[s|e] st1] eqn:Hc.
  - destruct (_ && _); reflexivity.
  - destruct (completePairing_throws _ _ _ _ _ _ _ _ _ Hc) as [-> | [-> | ->]];
      reflexivity.
Qed.

(** The ways [POST /complete] can end. *)
Lemma routeCompleteIO_cases saveOk g cfg now bodyCode bodySessionId req tok st :
  let ip := orElse (req_ip req) (req_remoteAddress req) in
  let out := routeCompleteIO saveOk g cfg now bodyCode bodySessionId req tok st in
  (jsTruthy bodyCode && jsTruthy bodySessionId = false
   /\ out = (Replied {| status := 400; code := None;
                        error := "Missing code or sessionId" |}, st))
  \/ (jsTruthy bodyCode && jsTruthy bodySessionId = true
      /\ ((exists b, bodyCode = JOther b /\ out = (Forwarded, st))
          \/ (exists c b, bodyCode = JString c /\ bodySessionId = JOther b
               /\ out = (Replied (errorReply 400 PAIRING_CODE_INVALID
                                             "Invalid pairing code"), st))
          \/ (exists c sid v st1,
                 bodyCode = JString c /\ bodySessionId = JString sid
                 /\ completePairingIO saveOk cfg now c sid ip tok st = (v, st1)
                 /\ match v with
                    | Returned s => exists s' st', out = (Success s', st')
                    | Threw e =>
                        exists msg, out = (Replied (errorReply 400 e msg), st1)
                    | Failed => out = (Forwarded, st1)
                    end))).
Proof.
  intros ip out. subst ip out. unfold routeCompleteIO.
  destruct (jsTruthy bodyCode && jsTruthy bodySessionId) eqn:Hboth.
  - right. split; [reflexivity|].
    apply andb_prop in Hboth as [-> ->]. cbn [negb orb].
    destruct bodyCode as [c|b]; [|left; eauto].
    destruct bodySessionId as [sid|b]; [|right; left; eauto].
    right. right.
    destruct (completePairingIO saveOk cfg now c sid _ tok st) as [v st1] eqn:Hc.
    exists c, sid, v, st1.
    split; [reflexivity|]. split; [reflexivity|]. split; [exact Hc|].
    destruct v as [s|e|]; [| |reflexivity].
    + destruct (_ && _); eauto.
    + destruct (completePairingIO_threw _ _ _ _ _ _ _ _ _ _ Hc)
        as [_ [-> | [-> | ->]]]; eauto.
  - left. split; [reflexivity|].
    destruct (jsTruthy bodyCode); destruct (jsTruthy bodySessionId);
      try discriminate; reflexivity.
Qed.

(** X20. Every error reply that [POST /complete] writes itself has status
    400: for a missing or falsy field, where the service is not called and
    nothing changes, and for each of the three codes [completePairing]
    throws, where the reply carries the code thrown and the state is the one
    [completePairing] left.  Every other error is handed to [next(error)]:
    that happens exactly when [code] is a truthy value that is not a string,
    or when the pairing went through and the write of [sessions.json]
    failed; in the latter case the session, with its token, is in the map
    although the client is given no token, and the file is as it was. *)
Theorem routeCompleteIO_failure saveOk g cfg now bodyCode bodySessionId req tok st :
  let ip := orElse (req_ip req) (req_remoteAddress req) in
  let out := routeCompleteIO saveOk g cfg now bodyCode bodySessionId req tok st in
  (forall r, fst out = Replied r -> status r = 400)
  /\ (jsTruthy bodyCode && jsTruthy bodySessionId = false ->
      out = (Replied {| status := 400; code := None;
                        error := "Missing code or sessionId" |}, st))
  /\ (forall c sid e st',
        bodyCode = JString c -> bodySessionId = JString sid ->
        c <> "" -> sid <> "" ->
        completePairingIO saveOk cfg now c sid ip tok st = (Threw e, st') ->
        snd out = st' /\ exists r, fst out = Replied r /\ code r = Some e)
  /\ (fst out = Forwarded
      <-> jsTruthy bodyCode = true /\ jsTruthy bodySessionId = true
          /\ ((exists b, bodyCode = JOther b)
              \/ exists c sid,
                   bodyCode = JString c /\ bodySessionId = JString sid
                   /\ fst (completePairingIO saveOk cfg now c sid ip tok st)
                      = Failed))
  /\ (forall c sid,
        bodyCode = JString c -> bodySessionId = JString sid ->
        fst out = Forwarded ->
        saveOk = false
        /\ sessionsFile (snd out) = sessionsFile st
        /\ exists s, getSession sid (snd out) = Some s /\ token s = tok).
Proof.
  intros ip out.
  destruct (routeCompleteIO_cases saveOk g cfg now bodyCode bodySessionId req tok st)
    as [(Hmiss & Hout)|(Hboth & Hrest)]; fold ip in Hout || idtac.
  - (* a field is missing or falsy *)
    subst out. rewrite Hout. simpl.
    split; [intros r [= <-]; reflexivity|]. split; [reflexivity|].
    split.
    { intros c sid e st' -> -> Hc Hs _. exfalso. simpl in Hmiss.
      destruct (String.eqb_spec c ""); [contradiction|].
      destruct (String.eqb_spec sid ""); [contradiction|]. discriminate. }
    split; [split; [discriminate|]|intros c sid _ _; discriminate].
    intros (H1 & H2 & _). rewrite H1, H2 in Hmiss. discriminate.
  - apply andb_prop in Hboth as [Htc Hts].
    assert (Hnm : jsTruthy bodyCode && jsTruthy bodySessionId = false -> False)
      by (rewrite Htc, Hts; discriminate).
    destruct Hrest as [(b & -> & Hout)|
                       [(c & b & -> & -> & Hout)|
                        (c & sid & v & st1 & -> & -> & Hc & Hv)]].
    + (* the code is not a string *)
      subst out. rewrite Hout. simpl.
      split; [discriminate|]. split; [intros Hm; exfalso; exact (Hnm Hm)|].
      split; [intros c sid e st' [=]|].
      split; [split; [intros _|reflexivity]|intros c sid [=]].
      split; [exact Htc|]. split; [exact Hts|]. left. eauto.
    + (* the correlation id is not a string *)
      subst out. rewrite Hout. simpl.
      split; [intros r [= <-]; reflexivity|].
      split; [intros Hm; exfalso; exact (Hnm Hm)|].
      split; [intros c0 sid e st' _ [=]|].
      split; [split; [discriminate|]|intros c0 sid _ [=]].
      intros (_ & _ & [(b' & [=])|(c0 & sid0 & _ & [=] & _)]).
    + (* two strings: the service is called *)
      fold ip in Hc.
      assert (Hthrew : forall c0 sid0 e st',
                 JString c = JString c0 -> JString sid = JString sid0 ->
                 completePairingIO saveOk cfg now c0 sid0 ip tok st = (Threw e, st') ->
                 v = Threw e /\ st1 = st').
      { intros c0 sid0 e st' [= <-] [= <-] H. rewrite Hc in H.
        now injection H as -> ->. }
      assert (Hfailed : (exists c0 sid0,
                           JString c = JString c0 /\ JString sid = JString sid0
                           /\ fst (completePairingIO saveOk cfg now c0 sid0 ip tok st)
                              = Failed) <-> v = Failed).
      { split.
        - intros (c0 & sid0 & [= <-] & [= <-] & H). now rewrite Hc in H.
        - intros ->. exists c, sid. now rewrite Hc. }
      destruct v as [s|e|].
      * destruct Hv as (s' & st' & Hout). subst out. rewrite Hout. simpl.
        split; [discriminate|]. split; [intros Hm; exfalso; exact (Hnm Hm)|].
        split; [intros c0 sid0 e st'0 E1 E2 _ _ H;
                destruct (Hthrew _ _ _ _ E1 E2 H); discriminate|].
        split; [split; [discriminate|]|intros c0 sid0 _ _; discriminate].
        intros (_ & _ & [(b & [=])|H]). apply Hfailed in H. discriminate.
      * destruct Hv as (msg & Hout). subst out. rewrite Hout. simpl.
        split; [intros r [= <-]; reflexivity|].
        split; [intros Hm; exfalso; exact (Hnm Hm)|].
        split; [intros c0 sid0 e0 st'0 E1 E2 _ _ H;
                destruct (Hthrew _ _ _ _ E1 E2 H) as [[= ->] ->];
                split; [reflexivity|]; eexists; split; reflexivity|].
        split; [split; [discriminate|]|intros c0 sid0 _ _; discriminate].
        intros (_ & _ & [(b & [=])|H]). apply Hfailed in H. discriminate.
      * subst out. rewrite Hv. simpl.
        split; [discriminate|]. split; [intros Hm; exfalso; exact (Hnm Hm)|].
        split; [intros c0 sid0 e st'0 E1 E2 _ _ H;
                destruct (Hthrew _ _ _ _ E1 E2 H); discriminate|].
        split.
        { split; [intros _|reflexivity].
          split; [exact Htc|]. split; [exact Hts|]. right.
          exists c, sid. rewrite Hc. auto. }
        intros c0 sid0 [= <-] [= <-] _.
        assert (Hfst : fst (completePairingIO saveOk cfg now c sid ip tok st)
                       = Failed) by now rewrite Hc.
        destruct (completePairingIO_failed _ _ _ _ _ _ _ _ Hfst)
          as (Hno & s & st' & Hok & Hst).
        rewrite Hc in Hst. simpl in Hst. subst st1.
        split; [exact Hno|]. split; [reflexivity|].
        destruct (completePairing_cases cfg now c sid ip tok st)
          as [(_ & E)|[(pc & _ & _ & E)|[(pc & _ & _ & _ & E)|
              [(pc & _ & _ & _ & _ & E)|
               (pc & s1 & _ & _ & _ & _ & _ & Htok & _ & _ & _ & E)]]]];
          rewrite Hok in E; try discriminate.
        injection E as <- ->. exists s. split; [|exact Htok].
        unfold getSession. simpl. apply JsMapFacts.get_set_eq.
Qed.

(** ** The failed write on the scenarios *)


Lemma routeCompleteIO_failure_witness :
  let req := {| req_authorization := None; req_ip := None;
                req_remoteAddress := None; req_userAgent := None |} in
  let g := {| SESSION_IP_BINDING := false; SESSION_USER_AGENT_CHECK := false |} in
  let out := routeCompleteIO false g defaultConfig 2000 (JString "A7K9M2")
                             (JString "s1") req "tok1" Scenario.pending in
  fst out = Forwarded
  /\ sessionsFile (snd out) = []
  /\ (exists s, getSession "s1" (snd out) = Some s /\ token s = "tok1")
  /\ fst (routeCompleteIO true g defaultConfig 2000 (JOther true) (JString "s1")
                          req "tok1" Scenario.pending) = Forwarded.
Proof.
  intros req g out.
  assert (Hf : fst out = Forwarded) by (vm_compute; reflexivity).
  split; [exact Hf|].
  destruct (proj2 (proj2 (proj2 (proj2
              (routeCompleteIO_failure false g defaultConfig 2000 (JString "A7K9M2")
                 (JString "s1") req "tok1" Scenario.pending))))
              "A7K9M2" "s1" eq_refl eq_refl Hf) as (_ & Hfile & Hs).
  split; [exact Hfile|]. split; [exact Hs|]. vm_compute. reflexivity.
Defined.
